(** * xerrorhandler: the error registry of [mod.ts]

    A shallow embedding of the [ErrorRegistry] class and of the method
    wrapper installed by its [catchError] decorator, followed by the
    properties the specification states about them.

    The registry owns two JavaScript arrays.  Arrays are objects: [push]
    changes the array in place, while [filter] and the literal [[]] make a
    new array that is then assigned to the field.  A [for ... of] loop keeps
    the array object it started on and reads its length again at every step.
    The model therefore keeps the arrays in a store, addressed by reference,
    and the two private fields of the registry hold references.

    Observers and wrapped method bodies are code of the embedding
    application.  They are modelled as functions from the store to a
    completion and a new store, so they may call back into the registry. *)

From stdpp Require Import base option list strings gmap fin_maps.
From Stdlib Require Import ZArith.

(** ** Values and completions *)

(** The JavaScript values the registry handles: the thrown value, the
    receiver, the arguments and the results of wrapped methods.  [VError] is
    an [Error] object with its [name] and [message]; [VObject] is an object
    that has neither a [name] nor a [message] property, known by its
    identity; [VRecord] is any other object or function, with its identity
    and what its [name] and [message] properties hold ([undefined] for one
    it does not have); [VArray] is a reference to an array of entries, which
    is what [getRegistry] returns. *)
Inductive Value : Type :=
| VUndefined
| VNull
| VBoolean (b : bool)
| VNumber (n : Z)
| VString (s : string)
| VError (name message : string)
| VObject (id : nat)
| VRecord (id : nat) (name message : Value)
| VArray (a : nat).

(** How a piece of application code ends: it returns or it throws. *)
Inductive Completion (A : Type) : Type :=
| Normal (a : A)
| Throw (e : Value).
Arguments Normal {A} a.
Arguments Throw {A} e.

(** ** Data model *)

(** [interface ErrorRegistryEntry].  The timestamp is the reading of the
    clock taken by [new Date()]. *)
Record ErrorRegistryEntry : Type := {
  error : Value;
  context : Value;
  constructor_name : string;
  method_name : string;
  timestamp : Z
}.

(** What [logRegistry] hands to [console.error] for one entry. *)
Record LogRecord : Type := {
  log_error_name : Value;
  log_error_message : Value;
  log_context : Value;
  log_constructor_name : string;
  log_method_name : string;
  log_timestamp : Z
}.

(** The store: the array objects, the two private fields of the one
    registry instance, the clock and what was written to [console.error].
    Observers are function objects; a function object is known by its
    identity, a natural number, which is what [!==] compares. *)
Record Store : Type := {
  entryArrays : gmap nat (list ErrorRegistryEntry);
  observerArrays : gmap nat (list nat);
  errorRegistryEntries : nat;
  errorRegistryObservers : nat;
  clock : Z;
  console : list LogRecord
}.

(** Application code: it may read and change the store, and returns or throws. *)
Abbreviation Code := (Store → Completion Value * Store).

(** How a call into the registry ends.  [Unfinished] is the loop of
    [notifyObservers] still running when the fuel is used up. *)
Inductive Outcome (A : Type) : Type :=
| Returned (a : A)
| Thrown (e : Value)
| Unfinished.
Arguments Returned {A} a.
Arguments Thrown {A} e.
Arguments Unfinished {A}.

(** The result of a call into the registry: how it ended, the store it
    left, and the observer invocations it made, oldest first, each with the
    entry that was passed. *)
Record Run (A : Type) : Type := {
  outcome : Outcome A;
  final : Store;
  calls : list (nat * ErrorRegistryEntry)
}.
Arguments outcome {A} r.
Arguments final {A} r.
Arguments calls {A} r.

(** The content of an array object. *)
Definition entries_at (s : Store) (a : nat) : list ErrorRegistryEntry :=
  default [] (entryArrays s !! a).

Definition observers_at (s : Store) (a : nat) : list nat :=
  default [] (observerArrays s !! a).

(** ** The methods of [ErrorRegistry] *)

(** [new ErrorRegistry()]: two empty arrays. *)
Definition newErrorRegistry (now : Z) : Store :=
  {| entryArrays := {[ 0 := [] ]};
     observerArrays := {[ 0 := [] ]};
     errorRegistryEntries := 0;
     errorRegistryObservers := 0;
     clock := now;
     console := [] |}.

(** [getRegistry()] returns the array itself, not a copy. *)
Definition getRegistry (s : Store) : nat := errorRegistryEntries s.

(** The entry sequence and the observer list: the content of the arrays the
    fields refer to. *)
Definition entries (s : Store) : list ErrorRegistryEntry :=
  entries_at s (getRegistry s).

Definition observers (s : Store) : list nat :=
  observers_at s (errorRegistryObservers s).

(** [clearRegistry()]: [this.errorRegistryEntries = []]. *)
Definition clearRegistry (s : Store) : Store :=
  let a := fresh (dom (entryArrays s)) in
  {| entryArrays := <[a := []]> (entryArrays s);
     observerArrays := observerArrays s;
     errorRegistryEntries := a;
     errorRegistryObservers := errorRegistryObservers s;
     clock := clock s;
     console := console s |}.

(** [registerObserver(observer)]: [this.errorRegistryObservers.push(observer)].
    The array is taken to have room for one more element; the length at
    which the engine refuses to grow an array is not part of the model. *)
Definition registerObserver (observer : nat) (s : Store) : Store :=
  let a := errorRegistryObservers s in
  {| entryArrays := entryArrays s;
     observerArrays := <[a := observers_at s a ++ [observer]]> (observerArrays s);
     errorRegistryEntries := errorRegistryEntries s;
     errorRegistryObservers := a;
     clock := clock s;
     console := console s |}.

(** [unregisterObserver(observer)]:
    [this.errorRegistryObservers = this.errorRegistryObservers.filter((o) => o !== observer)]. *)
Definition unregisterObserver (observer : nat) (s : Store) : Store :=
  let a := fresh (dom (observerArrays s)) in
  {| entryArrays := entryArrays s;
     observerArrays :=
       <[a := filter (λ o, o ≠ observer) (observers s)]> (observerArrays s);
     errorRegistryEntries := errorRegistryEntries s;
     errorRegistryObservers := a;
     clock := clock s;
     console := console s |}.

(** [this.errorRegistryEntries.push(entry)]. *)
Definition push_entry (entry : ErrorRegistryEntry) (s : Store) : Store :=
  let a := errorRegistryEntries s in
  {| entryArrays := <[a := entries_at s a ++ [entry]]> (entryArrays s);
     observerArrays := observerArrays s;
     errorRegistryEntries := a;
     errorRegistryObservers := errorRegistryObservers s;
     clock := clock s;
     console := console s |}.

(** The [TypeError] of the engine (V8, which Deno runs on) for reading the
    property [p] of [undefined] or [null]. *)
Definition type_error_reading (v : Value) (p : string) : Value :=
  VError "TypeError"
    ("Cannot read properties of " ++
     match v with VNull => "null" | _ => "undefined" end ++
     " (reading '" ++ p ++ "')").

(** Reading the property [p] of [v], as [logRegistry] does for [name] and
    [message]: a [TypeError] on [undefined] and [null]; what the object
    holds on an object, whose [name] and [message] are taken to be plain
    data properties; [undefined] on the other values, which have neither a
    [name] nor a [message]. *)
Definition get_property (v : Value) (p : string) : Completion Value :=
  match v with
  | VUndefined | VNull => Throw (type_error_reading v p)
  | VError name message =>
      if String.eqb p "name" then Normal (VString name)
      else if String.eqb p "message" then Normal (VString message)
      else Normal VUndefined
  | VRecord _ name message =>
      if String.eqb p "name" then Normal name
      else if String.eqb p "message" then Normal message
      else Normal VUndefined
  | _ => Normal VUndefined
  end.

Definition console_error (r : LogRecord) (s : Store) : Store :=
  {| entryArrays := entryArrays s;
     observerArrays := observerArrays s;
     errorRegistryEntries := errorRegistryEntries s;
     errorRegistryObservers := errorRegistryObservers s;
     clock := clock s;
     console := console s ++ [r] |}.

(** The loop of [logRegistry].  Its body calls nothing but [console.error],
    so the array cannot change while the loop runs and the loop is a
    recursion on the array's content. *)
Fixpoint log_entries (es : list ErrorRegistryEntry) (s : Store) : Completion unit * Store :=
  match es with
  | [] => (Normal tt, s)
  | entry :: rest =>
      match get_property (error entry) "name" with
      | Throw e => (Throw e, s)
      | Normal name =>
          match get_property (error entry) "message" with
          | Throw e => (Throw e, s)
          | Normal message =>
              log_entries rest
                (console_error
                   {| log_error_name := name;
                      log_error_message := message;
                      log_context := context entry;
                      log_constructor_name := constructor_name entry;
                      log_method_name := method_name entry;
                      log_timestamp := timestamp entry |} s)
          end
      end
  end.

Definition logRegistry (s : Store) : Completion unit * Store :=
  log_entries (entries s) s.

(** ** The decorator *)

(** A function object: its [name] and what a call of it does. *)
Record Function : Type := {
  name : string;
  body : Value → list Value → Store → Completion Value * Store
}.

(** The first argument of a method decorator: the prototype of the class
    for an instance method, the class itself for a static method. *)
Inductive Target : Type :=
| PrototypeOf (class_name : string)
| ClassItself (class_name : string).

(** [target.constructor.name].  The [constructor] of [C.prototype] is [C];
    a class is a function object, and the [constructor] of a function
    object is [Function]. *)
Definition target_constructor_name (target : Target) : string :=
  match target with
  | PrototypeOf class_name => class_name
  | ClassItself _ => "Function"
  end.

Record PropertyDescriptor (F : Type) : Type := { value : F }.
Arguments value {F} p.

(** A wrapped method: it runs with fuel because it may loop over observers. *)
Abbreviation Wrapped := (nat → Value → list Value → Store → Run Value).

Section Registry.

(** What each observer does when it is called with an entry. *)
Variable behaviour : nat → ErrorRegistryEntry → Store → Completion Value * Store.

(** [for (const observer of array) observer(entry)], from position [index]
    on.  The iterator holds the array [array]; each step reads the
    array's present content, so the loop ends only when [index] has caught
    up with an array that observers may be pushing to.  Each turn of the
    loop uses one unit of [fuel]. *)
Fixpoint for_of_observers (fuel : nat) (array index : nat)
    (entry : ErrorRegistryEntry) (s : Store) : Run unit :=
  match fuel with
  | 0 => {| outcome := Unfinished; final := s; calls := [] |}
  | S fuel' =>
      match observers_at s array !! index with
      | None => {| outcome := Returned tt; final := s; calls := [] |}
      | Some observer =>
          match behaviour observer entry s with
          | (Normal _, s') =>
              let r := for_of_observers fuel' array (S index) entry s' in
              {| outcome := outcome r;
                 final := final r;
                 calls := (observer, entry) :: calls r |}
          | (Throw e, s') =>
              {| outcome := Thrown e; final := s'; calls := [(observer, entry)] |}
          end
      end
  end.

(** [notifyObservers(entry)]. *)
Definition notifyObservers (fuel : nat) (entry : ErrorRegistryEntry) (s : Store) : Run unit :=
  for_of_observers fuel (errorRegistryObservers s) 0 entry s.

(** The entry [pushErrorToRegistry] builds. *)
Definition new_entry (error context : Value) (constructor_name method_name : string)
    (s : Store) : ErrorRegistryEntry :=
  {| error := error;
     context := context;
     constructor_name := constructor_name;
     method_name := method_name;
     timestamp := clock s |}.

(** [pushErrorToRegistry(error, context, constructor_name, method_name)]. *)
Definition pushErrorToRegistry (fuel : nat) (error context : Value)
    (constructor_name method_name : string) (s : Store) : Run unit :=
  let entry := new_entry error context constructor_name method_name s in
  notifyObservers fuel entry (push_entry entry s).

(** The function [catchError()] returns, applied to [target], the
    property key and the descriptor of the method.  The new
    [descriptor.value] tries the method; the [catch] block records the
    error and falls off its end, so the call returns [undefined]. *)
Definition catchError (target : Target) (_key : string)
    (descriptor : PropertyDescriptor Function) : PropertyDescriptor Wrapped :=
  let method := value descriptor in
  {| value := λ fuel this args s,
       match body method this args s with
       | (Normal result, s') =>
           {| outcome := Returned result; final := s'; calls := [] |}
       | (Throw error, s') =>
           let r := pushErrorToRegistry fuel error this
                      (target_constructor_name target) (name method) s' in
           {| outcome := match outcome r with
                         | Returned _ => Returned VUndefined
                         | Thrown e => Thrown e
                         | Unfinished => Unfinished
                         end;
              final := final r;
              calls := calls r |}
       end |}.

(** Declaring [@registry.catchError() key(...) { ... }] in class
    [class_name], static or not: the decorator receives the class itself or
    its prototype, and the method's function object, which is named after
    the key. *)
Definition decorated (class_name : string) (static : bool) (key : string)
    (implementation : Value → list Value → Store → Completion Value * Store) : Wrapped :=
  value (catchError
           (if static then ClassItself class_name else PrototypeOf class_name)
           key
           {| value := {| name := key; body := implementation |} |}).

(** ** Calls from the application *)

(** What application code can ask of a registry: its five public methods,
    and a call of a method that [catchError] decorates. *)
Inductive Call : Type :=
| GetRegistry
| ClearRegistry
| RegisterObserver (observer : nat)
| UnregisterObserver (observer : nat)
| LogRegistry
| Invoke (target : Target) (method : Function) (this : Value) (args : list Value).

Definition perform (fuel : nat) (c : Call) (s : Store) : Run Value :=
  match c with
  | GetRegistry =>
      {| outcome := Returned (VArray (getRegistry s)); final := s; calls := [] |}
  | ClearRegistry =>
      {| outcome := Returned VUndefined; final := clearRegistry s; calls := [] |}
  | RegisterObserver observer =>
      {| outcome := Returned VUndefined; final := registerObserver observer s; calls := [] |}
  | UnregisterObserver observer =>
      {| outcome := Returned VUndefined; final := unregisterObserver observer s; calls := [] |}
  | LogRegistry =>
      match logRegistry s with
      | (Normal _, s') => {| outcome := Returned VUndefined; final := s'; calls := [] |}
      | (Throw e, s') => {| outcome := Thrown e; final := s'; calls := [] |}
      end
  | Invoke target method this args =>
      value (catchError target (name method) {| value := method |}) fuel this args s
  end.

(** A sequence of calls, each made in the store the one before left,
    whether that one returned or threw: the store at the end and all
    observer invocations made on the way. *)
Fixpoint session (fuel : nat) (cs : list Call) (s : Store)
    : Store * list (nat * ErrorRegistryEntry) :=
  match cs with
  | [] => (s, [])
  | c :: rest =>
      let r := perform fuel c s in
      let after := session fuel rest (final r) in
      (after.1, calls r ++ after.2)
  end.

End Registry.

(** ** What application code may be assumed to do *)

(** The code returns, whatever the store. *)
Definition returns_normally (f : Code) : Prop :=
  ∀ s, ∃ v, (f s).1 = Normal v.

(** The code throws [e], whatever the store. *)
Definition throws (e : Value) (f : Code) : Prop :=
  ∀ s, (f s).1 = Throw e.

(** The code leaves the entry sequence as it found it. *)
Definition keeps_entries (f : Code) : Prop :=
  ∀ s, entries (f s).2 = entries s.

(** The code leaves the observer arrays and the observer field as it found them. *)
Definition keeps_observers (f : Code) : Prop :=
  ∀ s, observerArrays (f s).2 = observerArrays s ∧
       errorRegistryObservers (f s).2 = errorRegistryObservers s.

(** The code leaves the observer field as it found it. *)
Definition keeps_observer_field (f : Code) : Prop :=
  ∀ s, errorRegistryObservers (f s).2 = errorRegistryObservers s.

(** An observer array that exists is only ever pushed to.  The arrays are
    private to the registry, and [push] is all its methods do to an array
    that exists. *)
Definition appends_only (f : Code) : Prop :=
  ∀ s a xs, observerArrays s !! a = Some xs →
            ∃ ys, observerArrays (f s).2 !! a = Some (xs ++ ys).

(** The code does not register [cb]: where [cb] is not in the observer
    list, or not in an array that exists, it is not there afterwards. *)
Definition never_registers (cb : nat) (f : Code) : Prop :=
  ∀ s, (cb ∉ observers s → cb ∉ observers (f s).2) ∧
       (∀ a xs, observerArrays s !! a = Some xs → cb ∉ xs →
                cb ∉ observers_at (f s).2 a).

(** The code pushes [o] on the array that is the observer list when the
    code starts, as a call of [registerObserver(o)] does when no call of
    [unregisterObserver] came before it in the same code. *)
Definition registers (o : nat) (f : Code) : Prop :=
  ∀ s xs, observerArrays s !! errorRegistryObservers s = Some xs →
          ∃ ys, observerArrays (f s).2 !! errorRegistryObservers s = Some (xs ++ ys) ∧
                o ∈ ys.

(** The code calls [registerObserver] once, with an observer of [G], and
    returns: the observer list is one observer of [G] longer and is held by
    the array that held it.  This is asked only where the list is shorter
    than [capacity], the length up to which the engine grows the array. *)
Definition registers_one_more (capacity : nat) (G : nat → Prop) (f : Code) : Prop :=
  ∀ s, length (observers s) < capacity →
       ∃ v q, G q ∧ (f s).1 = Normal v ∧
              errorRegistryObservers (f s).2 = errorRegistryObservers s ∧
              observers (f s).2 = observers s ++ [q].

(** The code changes neither the entry sequence nor the observer list. *)
Definition leaves_registry (f : Code) : Prop :=
  ∀ s, entries (f s).2 = entries s ∧ observers (f s).2 = observers s.

(** A call of a wrapped method whose body throws, whatever the store. *)
Definition throwing_call (c : Call) : Prop :=
  match c with
  | Invoke _ method this args => ∃ e, throws e (body method this args)
  | _ => False
  end.

(** A call whose method body, if it has one, leaves the registry alone. *)
Definition body_leaves_registry (c : Call) : Prop :=
  match c with
  | Invoke _ method this args => leaves_registry (body method this args)
  | _ => True
  end.


(** ** The specification's account of the two sequences *)

(** The entry sequence after a call, in the specification's words: a
    throwing wrapped call appends one entry, [clearRegistry] empties the
    sequence, and nothing else changes it. *)
Definition spec_entries_after (c : Call) (s : Store) : list ErrorRegistryEntry :=
  match c with
  | ClearRegistry => []
  | Invoke target method this args =>
      match body method this args s with
      | (Normal _, _) => entries s
      | (Throw e, s') =>
          entries s ++ [new_entry e this (target_constructor_name target) (name method) s']
      end
  | _ => entries s
  end.

(** The observer list after a call, in the specification's words:
    [registerObserver] appends, [unregisterObserver] removes every
    occurrence, and nothing else changes it. *)
Definition spec_observers_after (c : Call) (s : Store) : list nat :=
  match c with
  | RegisterObserver o => observers s ++ [o]
  | UnregisterObserver o => filter (λ x, x ≠ o) (observers s)
  | _ => observers s
  end.

(** ** What [logRegistry] writes *)

(** A thrown value whose properties can be read: anything but [undefined]
    and [null]. *)
Definition readable (v : Value) : Prop :=
  match v with
  | VUndefined | VNull => False
  | _ => True
  end.

(** The property [p] of [v], where reading it does not throw. *)
Definition read (v : Value) (p : string) : Value :=
  match get_property v p with
  | Normal x => x
  | Throw _ => VUndefined
  end.

(** The record for one entry: [{ error: { name, message }, ...rest }]. *)
Definition log_record_of (entry : ErrorRegistryEntry) : LogRecord :=
  {| log_error_name := read (error entry) "name";
     log_error_message := read (error entry) "message";
     log_context := context entry;
     log_constructor_name := constructor_name entry;
     log_method_name := method_name entry;
     log_timestamp := timestamp entry |}.

(** ** Further assumptions on application code *)

(** The code leaves the entry arrays and the entry field as it found them. *)
Definition keeps_entry_arrays (f : Code) : Prop :=
  ∀ s, entryArrays (f s).2 = entryArrays s ∧
       errorRegistryEntries (f s).2 = errorRegistryEntries s.

(** The code does not turn the clock back. *)
Definition clock_advances (f : Code) : Prop :=
  ∀ s, (clock s ≤ clock (f s).2)%Z.

(** An observer array that exists keeps its content. *)
Definition keeps_arrays (f : Code) : Prop :=
  ∀ s a xs, observerArrays s !! a = Some xs → observerArrays (f s).2 !! a = Some xs.

(** A call of a wrapped method whose body leaves the registry alone. *)
Definition quiet_invocation (c : Call) : Prop :=
  match c with
  | Invoke _ method this args => leaves_registry (body method this args)
  | _ => False
  end.

(** The entries are in the order of their timestamps, none later than the clock. *)
Definition chronological (s : Store) : Prop :=
  (∀ i j ei ej, i ≤ j → entries s !! i = Some ei → entries s !! j = Some ej →
                (timestamp ei ≤ timestamp ej)%Z) ∧
  (∀ e, e ∈ entries s → (timestamp e ≤ clock s)%Z).

(** A call whose method body, if it has one, leaves the entry sequence
    alone and does not turn the clock back. *)
Definition body_keeps_time (c : Call) : Prop :=
  match c with
  | Invoke _ method this args =>
      keeps_entries (body method this args) ∧ clock_advances (body method this args)
  | _ => True
  end.

(** ** Example programs *)

(** The method of the repository's tests: [riskyOperation() { throw new
    Error("Something went wrong") }]. *)
Definition something_went_wrong : Value := VError "Error" "Something went wrong".

Definition riskyOperation : Function :=
  {| name := "riskyOperation";
     body := λ _ _ s, (Throw something_went_wrong, s) |}.

(** A method that returns its first argument, or [undefined] without one. *)
Definition echo : Function :=
  {| name := "echo";
     body := λ _ args s, (Normal (default VUndefined (head args)), s) |}.

Definition observer_failed : Value := VError "Error" "observer failed".

(** Six observers, by identity:
    - [0] does nothing;
    - [1] throws;
    - [2] registers observer [0];
    - [3] unregisters observer [5], then registers observer [0];
    - [4] unregisters observer [0];
    - [5] registers itself again;
    any other identity does nothing. *)
Definition demo (observer : nat) (_ : ErrorRegistryEntry) (s : Store)
    : Completion Value * Store :=
  match observer with
  | 1 => (Throw observer_failed, s)
  | 2 => (Normal VUndefined, registerObserver 0 s)
  | 3 => (Normal VUndefined, registerObserver 0 (unregisterObserver 5 s))
  | 4 => (Normal VUndefined, unregisterObserver 0 s)
  | 5 => (Normal VUndefined, registerObserver 5 s)
  | _ => (Normal VUndefined, s)
  end.

(** Observers that do nothing. *)
Definition silent (_ : nat) (_ : ErrorRegistryEntry) (s : Store)
    : Completion Value * Store :=
  (Normal VUndefined, s).

(** Observer [2] registers observer [0]; the others do nothing. *)
Definition registering (observer : nat) (_ : ErrorRegistryEntry) (s : Store)
    : Completion Value * Store :=
  match observer with
  | 2 => (Normal VUndefined, registerObserver 0 s)
  | _ => (Normal VUndefined, s)
  end.

(** Observer [4] unregisters observer [0]; the others do nothing. *)
Definition unregistering (observer : nat) (_ : ErrorRegistryEntry) (s : Store)
    : Completion Value * Store :=
  match observer with
  | 4 => (Normal VUndefined, unregisterObserver 0 s)
  | _ => (Normal VUndefined, s)
  end.

(** A new registry with the observers [os] registered in that order. *)
Definition registry_with (os : list nat) : Store :=
  foldl (λ s o, registerObserver o s) (newErrorRegistry 0) os.

(** The entry recorded when [riskyOperation] of class [MockClass] throws
    on receiver [VObject 7] at time [0]. *)
Definition risky_entry : ErrorRegistryEntry :=
  {| error := something_went_wrong;
     context := VObject 7;
     constructor_name := "MockClass";
     method_name := "riskyOperation";
     timestamp := 0 |}.

(** [riskyOperation], decorated in class [MockClass], called on receiver
    [VObject 7] in a new registry where the observers [os] are registered. *)
Definition risky_call (behaviour : nat → ErrorRegistryEntry → Store → Completion Value * Store)
    (fuel : nat) (os : list nat) : Run Value :=
  value (catchError behaviour (PrototypeOf "MockClass") "riskyOperation"
           {| value := riskyOperation |})
    fuel (VObject 7) [] (registry_with os).

(** A method that throws the value [v]. *)
Definition failing (v : Value) : Function :=
  {| name := "failing"; body := λ _ _ s, (Throw v, s) |}.

(** Observer [6] unregisters itself; the others do nothing. *)
Definition once (observer : nat) (_ : ErrorRegistryEntry) (s : Store)
    : Completion Value * Store :=
  match observer with
  | 6 => (Normal VUndefined, unregisterObserver 6 s)
  | _ => (Normal VUndefined, s)
  end.

(** Observer [8] clears the registry; the others do nothing. *)
Definition consuming (observer : nat) (_ : ErrorRegistryEntry) (s : Store)
    : Completion Value * Store :=
  match observer with
  | 8 => (Normal VUndefined, clearRegistry s)
  | _ => (Normal VUndefined, s)
  end.

(** Observer [8] clears the registry and observer [1] throws; the others
    do nothing. *)
Definition clearing_then_failing (observer : nat) (_ : ErrorRegistryEntry) (s : Store)
    : Completion Value * Store :=
  match observer with
  | 1 => (Throw observer_failed, s)
  | 8 => (Normal VUndefined, clearRegistry s)
  | _ => (Normal VUndefined, s)
  end.

(** Time passes: the clock is one later. *)
Definition tick (s : Store) : Store :=
  {| entryArrays := entryArrays s;
     observerArrays := observerArrays s;
     errorRegistryEntries := errorRegistryEntries s;
     errorRegistryObservers := errorRegistryObservers s;
     clock := (clock s + 1)%Z;
     console := console s |}.

(** A method that takes some time and then throws. *)
Definition slow : Function :=
  {| name := "slow"; body := λ _ _ s, (Throw something_went_wrong, tick s) |}.

(** * Properties *)

(** ** What each method does to the two sequences *)

Lemma entries_clearRegistry (s : Store) : entries (clearRegistry s) = [].
Proof.
  unfold entries, entries_at, getRegistry, clearRegistry; simpl.
  by rewrite lookup_insert_eq.
Qed.

Lemma entries_push_entry (entry : ErrorRegistryEntry) (s : Store) :
  entries (push_entry entry s) = entries s ++ [entry].
Proof.
  unfold entries, entries_at, getRegistry, push_entry; simpl.
  by rewrite lookup_insert_eq.
Qed.

Lemma observers_registerObserver (o : nat) (s : Store) :
  observers (registerObserver o s) = observers s ++ [o].
Proof.
  unfold observers, observers_at, registerObserver; simpl.
  by rewrite lookup_insert_eq.
Qed.

Lemma observers_unregisterObserver (o : nat) (s : Store) :
  observers (unregisterObserver o s) = filter (λ x, x ≠ o) (observers s).
Proof.
  unfold observers at 1, observers_at, unregisterObserver; simpl.
  by rewrite lookup_insert_eq.
Qed.

(** An array that exists is not the one a fresh reference names. *)
Lemma fresh_not_allocated {A : Type} (h : gmap nat A) (a : nat) :
  is_Some (h !! a) → fresh (dom h) ≠ a.
Proof.
  intros Ha Heq. apply elem_of_dom in Ha. rewrite <- Heq in Ha.
  by apply is_fresh in Ha.
Qed.

Lemma unregisterObserver_old_arrays (o : nat) (s : Store) (a : nat) :
  is_Some (observerArrays s !! a) →
  observerArrays (unregisterObserver o s) !! a = observerArrays s !! a.
Proof.
  intros Ha. unfold unregisterObserver; simpl.
  apply lookup_insert_ne. by apply fresh_not_allocated.
Qed.

(** [logRegistry] writes to the console and to nothing else, also when it
    stops at an entry whose [error] is [undefined] or [null]. *)
Lemma log_entries_frame (es : list ErrorRegistryEntry) (s : Store) :
  entryArrays (log_entries es s).2 = entryArrays s ∧
  observerArrays (log_entries es s).2 = observerArrays s ∧
  errorRegistryEntries (log_entries es s).2 = errorRegistryEntries s ∧
  errorRegistryObservers (log_entries es s).2 = errorRegistryObservers s ∧
  clock (log_entries es s).2 = clock s.
Proof.
  revert s. induction es as [|entry rest IH]; intros s; simpl; [done|].
  destruct (get_property (error entry) "name"); [|done].
  destruct (get_property (error entry) "message"); [|done].
  match goal with |- context [log_entries rest ?s'] =>
    destruct (IH s') as (-> & -> & -> & -> & ->) end.
  done.
Qed.

Lemma entries_logRegistry (s : Store) : entries (logRegistry s).2 = entries s.
Proof.
  unfold logRegistry.
  destruct (log_entries_frame (entries s) s) as (H1 & _ & H3 & _).
  unfold entries at 1 3, entries_at, getRegistry. by rewrite H1, H3.
Qed.

Lemma observers_logRegistry (s : Store) : observers (logRegistry s).2 = observers s.
Proof.
  unfold logRegistry.
  destruct (log_entries_frame (entries s) s) as (_ & H2 & _ & H4 & _).
  unfold observers, observers_at. by rewrite H2, H4.
Qed.

(** ** The loop over the observers *)

Section Notification.

Variable behaviour : nat → ErrorRegistryEntry → Store → Completion Value * Store.

Lemma observers_at_lookup (s : Store) (a : nat) (xs : list nat) :
  observerArrays s !! a = Some xs → observers_at s a = xs.
Proof. intros H. unfold observers_at. by rewrite H. Qed.

(** One turn of the loop with an observer that returns. *)
Lemma for_of_observers_next (fuel a i p : nat) (e : ErrorRegistryEntry)
    (s s' : Store) (v : Value) :
  observers_at s a !! i = Some p →
  behaviour p e s = (Normal v, s') →
  for_of_observers behaviour (S fuel) a i e s =
  {| outcome := outcome (for_of_observers behaviour fuel a (S i) e s');
     final := final (for_of_observers behaviour fuel a (S i) e s');
     calls := (p, e) :: calls (for_of_observers behaviour fuel a (S i) e s') |}.
Proof. intros Hp Hb. simpl. by rewrite Hp, Hb. Qed.

(** The observers that are in the array when the loop reaches position
    [index] are called one after the other, in the array's order, as long
    as each returns and the array is only pushed to. *)
Lemma for_of_observers_prefix (e : ErrorRegistryEntry) (a : nat) (xs : list nat) :
  ∀ (fuel index : nat) (s : Store) (ys : list nat),
    observerArrays s !! a = Some (xs ++ ys) →
    (∀ p, p ∈ drop index xs →
          returns_normally (behaviour p e) ∧ appends_only (behaviour p e)) →
    length xs - index ≤ fuel →
    take (length xs - index) (calls (for_of_observers behaviour fuel a index e s)) =
    (λ o, (o, e)) <$> drop index xs.
Proof.
  induction fuel as [|fuel IH]; intros index s ys Ha Hrely Hfuel.
  - replace (length xs - index) with 0 by lia.
    rewrite drop_ge by lia. done.
  - destruct (decide (index < length xs)) as [Hlt|Hge].
    + destruct (lookup_lt_is_Some_2 xs index Hlt) as [p Hp].
      assert (Hin : p ∈ drop index xs).
      { apply list_elem_of_lookup. exists 0. by rewrite lookup_drop, Nat.add_0_r. }
      destruct (Hrely p Hin) as [Hret Happ].
      destruct (Hret s) as [v Hv].
      destruct (behaviour p e s) as [c s'] eqn:Hb. simpl in Hv. subst c.
      destruct (Happ s a _ Ha) as [ys' Ha']. rewrite Hb in Ha'. simpl in Ha'.
      rewrite <- app_assoc in Ha'.
      rewrite (for_of_observers_next fuel a index p e s s' v); [|
        by rewrite (observers_at_lookup _ _ _ Ha), lookup_app_l | done].
      simpl. rewrite (drop_S _ _ _ Hp).
      replace (length xs - index) with (S (length xs - S index)) by lia.
      simpl. f_equal.
      apply (IH (S index) s' (ys ++ ys')); [done| |lia].
      intros q Hq. apply Hrely. rewrite (drop_S _ _ _ Hp). by right.
    + replace (length xs - index) with 0 by lia.
      rewrite drop_ge by lia. done.
Qed.

(** The same for a single position: an observer at position [k] of the
    array is called as soon as the loop gets that far, which it does when
    the observers before it return. *)
Lemma for_of_observers_reaches (e : ErrorRegistryEntry) (a k q : nat) (xs : list nat) :
  xs !! k = Some q →
  (∀ p, p ∈ take k xs →
        returns_normally (behaviour p e) ∧ appends_only (behaviour p e)) →
  ∀ (fuel index : nat) (s : Store) (ys : list nat),
    observerArrays s !! a = Some (xs ++ ys) →
    index ≤ k →
    k - index < fuel →
    calls (for_of_observers behaviour fuel a index e s) !! (k - index) = Some (q, e).
Proof.
  intros Hk Hrely.
  induction fuel as [|fuel IH]; intros index s ys Ha Hle Hfuel; [lia|].
  destruct (decide (index = k)) as [->|Hne].
  - simpl. rewrite (observers_at_lookup _ _ _ Ha), (lookup_app_l_Some _ _ _ _ Hk).
    rewrite Nat.sub_diag. by destruct (behaviour q e s) as [[v|err] s'].
  - assert (Hlt : index < length xs).
    { apply lookup_lt_Some in Hk. lia. }
    destruct (lookup_lt_is_Some_2 xs index Hlt) as [p Hp].
    assert (Hin : p ∈ take k xs).
    { apply elem_of_take. exists index. split; [done|lia]. }
    destruct (Hrely p Hin) as [Hret Happ].
    destruct (Hret s) as [v Hv].
    destruct (behaviour p e s) as [c s'] eqn:Hb. simpl in Hv. subst c.
    destruct (Happ s a _ Ha) as [ys' Ha']. rewrite Hb in Ha'. simpl in Ha'.
    rewrite <- app_assoc in Ha'.
    rewrite (for_of_observers_next fuel a index p e s s' v); [|
      by rewrite (observers_at_lookup _ _ _ Ha), lookup_app_l | done].
    simpl. replace (k - index) with (S (k - S index)) by lia. simpl.
    apply (IH (S index) s' (ys ++ ys')); [done|lia|lia].
Qed.

(** Whatever the observers do to the store, as long as they only push to
    the array: the calls the loop makes are for consecutive positions of
    the array, starting where the loop started. *)
Lemma for_of_observers_segment (e : ErrorRegistryEntry) (a : nat) :
  (∀ p, appends_only (behaviour p e)) →
  ∀ (fuel index : nat) (s : Store) (xs : list nat),
    observerArrays s !! a = Some xs →
    ∃ ys n, observerArrays (final (for_of_observers behaviour fuel a index e s)) !! a
              = Some (xs ++ ys) ∧
            calls (for_of_observers behaviour fuel a index e s)
              = (λ o, (o, e)) <$> take n (drop index (xs ++ ys)).
Proof.
  intros Hrely. induction fuel as [|fuel IH]; intros index s xs Ha.
  - exists [], 0. by rewrite app_nil_r.
  - simpl. rewrite (observers_at_lookup _ _ _ Ha).
    destruct (xs !! index) as [p|] eqn:Hp.
    + destruct (Hrely p s a _ Ha) as [ys1 Ha1].
      destruct (behaviour p e s) as [[v|err] s'] eqn:Hb; simpl in *.
      * destruct (IH (S index) s' _ Ha1) as (ys2 & n & Hfin & Hcalls).
        exists (ys1 ++ ys2), (S n). rewrite app_assoc. split; [done|].
        rewrite Hcalls.
        rewrite (drop_S ((xs ++ ys1) ++ ys2) p index); [done|].
        rewrite <- app_assoc. by apply lookup_app_l_Some.
      * exists ys1, 1. split; [done|].
        by rewrite (drop_S (xs ++ ys1) p index) by by apply lookup_app_l_Some.
    + exists [], 0. by rewrite app_nil_r.
Qed.

(** A loop that returns has called everything that is in the array at the
    end, from its starting position on. *)
Lemma for_of_observers_returned (e : ErrorRegistryEntry) (a : nat) :
  (∀ p, appends_only (behaviour p e)) →
  ∀ (fuel index : nat) (s : Store) (xs : list nat),
    observerArrays s !! a = Some xs →
    outcome (for_of_observers behaviour fuel a index e s) = Returned tt →
    ∃ ys, observerArrays (final (for_of_observers behaviour fuel a index e s)) !! a
            = Some (xs ++ ys) ∧
          calls (for_of_observers behaviour fuel a index e s)
            = (λ o, (o, e)) <$> drop index (xs ++ ys).
Proof.
  intros Hrely. induction fuel as [|fuel IH]; intros index s xs Ha Hout; [done|].
  simpl in *. rewrite (observers_at_lookup _ _ _ Ha) in *.
  destruct (xs !! index) as [p|] eqn:Hp.
  - destruct (behaviour p e s) as [[v|err] s'] eqn:Hb; [|done]. simpl in *.
    destruct (Hrely p s a _ Ha) as [ys1 Ha1]. rewrite Hb in Ha1. simpl in Ha1.
    destruct (IH (S index) s' _ Ha1 Hout) as (ys2 & Hfin & Hcalls).
    exists (ys1 ++ ys2). rewrite app_assoc. split; [done|].
    rewrite Hcalls.
    rewrite (drop_S ((xs ++ ys1) ++ ys2) p index); [done|].
    rewrite <- app_assoc. by apply lookup_app_l_Some.
  - exists []. rewrite app_nil_r. split; [done|]. simpl.
    apply lookup_ge_None in Hp. by rewrite drop_ge.
Qed.

(** When the loop ends in a throw, the store it ends in is the one the
    throwing observer left, and that observer's call is the last one: no
    code of the registry runs after the throw. *)
Lemma for_of_observers_thrown_store (e : ErrorRegistryEntry) (a : nat) (err : Value) :
  ∀ (fuel index : nat) (s : Store),
    outcome (for_of_observers behaviour fuel a index e s) = Thrown err →
    ∃ p s0, last (calls (for_of_observers behaviour fuel a index e s)) = Some (p, e) ∧
            behaviour p e s0 = (Throw err, final (for_of_observers behaviour fuel a index e s)).
Proof.
  induction fuel as [|fuel IH]; intros index s; simpl; [done|].
  destruct (observers_at s a !! index) as [p|]; [|done].
  destruct (behaviour p e s) as [[v|e'] s'] eqn:Hb; simpl.
  - intros Hout. destruct (IH (S index) s' Hout) as (q & s0 & Hlast & Hq).
    exists q, s0. split; [|done].
    destruct (calls (for_of_observers behaviour fuel a (S index) e s')); done.
  - intros [= ->]. by exists p, s.
Qed.

(** The first observer that throws ends the loop: the observers before it
    were called, it was called, and nothing after it. *)
Lemma for_of_observers_thrown (e : ErrorRegistryEntry) (a : nat)
    (pre : list nat) (o : nat) (post : list nat) (err : Value) :
  throws err (behaviour o e) →
  ∀ (fuel index : nat) (s : Store) (ys : list nat),
    observerArrays s !! a = Some ((pre ++ o :: post) ++ ys) →
    (∀ p, p ∈ drop index pre →
          returns_normally (behaviour p e) ∧ appends_only (behaviour p e)) →
    index ≤ length pre →
    length pre - index < fuel →
    outcome (for_of_observers behaviour fuel a index e s) = Thrown err ∧
    calls (for_of_observers behaviour fuel a index e s)
      = (λ p, (p, e)) <$> drop index (pre ++ [o]).
Proof.
  intros Hthrow.
  induction fuel as [|fuel IH]; intros index s ys Ha Hrely Hle Hfuel; [lia|].
  destruct (decide (index = length pre)) as [->|Hne].
  - simpl. rewrite (observers_at_lookup _ _ _ Ha).
    rewrite <- !app_assoc, lookup_app_r, Nat.sub_diag by lia. simpl.
    specialize (Hthrow s). destruct (behaviour o e s) as [c s'].
    simpl in Hthrow. subst c. simpl.
    rewrite drop_app_length. done.
  - assert (Hlt : index < length pre) by lia.
    destruct (lookup_lt_is_Some_2 pre index Hlt) as [p Hp].
    assert (Hin : p ∈ drop index pre).
    { apply list_elem_of_lookup. exists 0. by rewrite lookup_drop, Nat.add_0_r. }
    destruct (Hrely p Hin) as [Hret Happ].
    destruct (Hret s) as [v Hv].
    destruct (behaviour p e s) as [c s'] eqn:Hb. simpl in Hv. subst c.
    destruct (Happ s a _ Ha) as [ys' Ha']. rewrite Hb in Ha'. simpl in Ha'.
    rewrite <- app_assoc in Ha'.
    rewrite (for_of_observers_next fuel a index p e s s' v); [|
      by rewrite (observers_at_lookup _ _ _ Ha), <- !app_assoc, lookup_app_l | done].
    simpl.
    destruct (IH (S index) s' (ys ++ ys') Ha') as [Hout Hcalls]; [|lia|lia|].
    { intros q Hq. apply Hrely. rewrite (drop_S _ _ _ Hp). by right. }
    split; [done|]. rewrite Hcalls.
    rewrite (drop_S (pre ++ [o]) p index); [done|]. by apply lookup_app_l_Some.
Qed.

(** What every observer that is called keeps true is true at the end. *)
Lemma for_of_observers_invariant (P : Store → Prop) (e : ErrorRegistryEntry) (a : nat) :
  ∀ (fuel index : nat) (s : Store),
    (∀ p, p ∈ (calls (for_of_observers behaviour fuel a index e s)).*1 →
          ∀ s0, P s0 → P (behaviour p e s0).2) →
    P s →
    P (final (for_of_observers behaviour fuel a index e s)).
Proof.
  induction fuel as [|fuel IH]; intros index s Hkeep HP; [done|].
  simpl in *. destruct (observers_at s a !! index) as [p|]; [|done].
  destruct (behaviour p e s) as [[v|err] s'] eqn:Hb; simpl in *.
  - apply IH.
    + intros q Hq. apply Hkeep. by right.
    + specialize (Hkeep p (list_elem_of_here _ _) s HP). by rewrite Hb in Hkeep.
  - specialize (Hkeep p (list_elem_of_here _ _) s HP). by rewrite Hb in Hkeep.
Qed.

(** Observers that return and leave the observer arrays alone are called
    once each, and then the loop returns. *)
Lemma for_of_observers_quiet (e : ErrorRegistryEntry) (a : nat) (xs : list nat) :
  ∀ (fuel index : nat) (s : Store),
    observers_at s a = xs →
    (∀ p, p ∈ drop index xs →
          returns_normally (behaviour p e) ∧ keeps_observers (behaviour p e)) →
    length xs - index < fuel →
    outcome (for_of_observers behaviour fuel a index e s) = Returned tt ∧
    calls (for_of_observers behaviour fuel a index e s) = (λ p, (p, e)) <$> drop index xs.
Proof.
  induction fuel as [|fuel IH]; intros index s Ha Hrely Hfuel; [lia|].
  simpl. rewrite Ha.
  destruct (xs !! index) as [p|] eqn:Hp.
  - assert (Hin : p ∈ drop index xs).
    { apply list_elem_of_lookup. exists 0. by rewrite lookup_drop, Nat.add_0_r. }
    destruct (Hrely p Hin) as [Hret Hkeep].
    destruct (Hret s) as [v Hv]. destruct (Hkeep s) as [Hh Hf].
    destruct (behaviour p e s) as [c s'] eqn:Hb. simpl in *. subst c.
    apply lookup_lt_Some in Hp as Hlt.
    destruct (IH (S index) s') as [Hout Hcalls]; [| |lia|].
    { unfold observers_at. rewrite Hh. exact Ha. }
    { intros q Hq. apply Hrely. rewrite (drop_S _ _ _ Hp). by right. }
    simpl. split; [done|]. by rewrite Hcalls, (drop_S _ _ _ Hp).
  - apply lookup_ge_None in Hp. by rewrite drop_ge.
Qed.

(** An observer that is in no array it could be read from is not called. *)
Lemma for_of_observers_never_called (cb : nat) (e : ErrorRegistryEntry) (a : nat) :
  (∀ p, never_registers cb (behaviour p e)) →
  ∀ (fuel index : nat) (s : Store),
    cb ∉ observers_at s a →
    cb ∉ (calls (for_of_observers behaviour fuel a index e s)).*1.
Proof.
  intros Hrely. induction fuel as [|fuel IH]; intros index s Hcb; simpl.
  - apply not_elem_of_nil.
  - destruct (observers_at s a !! index) as [p|] eqn:Hp; [|apply not_elem_of_nil].
    assert (Hne : cb ≠ p).
    { intros ->. apply Hcb. by eapply list_elem_of_lookup_2. }
    assert (Hcb' : cb ∉ observers_at (behaviour p e s).2 a).
    { unfold observers_at in Hcb, Hp.
      destruct (observerArrays s !! a) as [xs|] eqn:Ha; [|done].
      by apply (proj2 (Hrely p s) a xs). }
    destruct (behaviour p e s) as [[v|err] s'] eqn:Hb; simpl in *.
    + apply not_elem_of_cons. split; [done|]. by apply IH.
    + apply not_elem_of_cons. split; [done|]. apply not_elem_of_nil.
Qed.

End Notification.

(** ** The wrapped method *)

Section Wrapper.

Variable behaviour : nat → ErrorRegistryEntry → Store → Completion Value * Store.

Lemma observers_push_entry (entry : ErrorRegistryEntry) (s : Store) :
  observers (push_entry entry s) = observers s.
Proof. done. Qed.

Lemma calls_fst (e : ErrorRegistryEntry) (xs : list nat) :
  ((λ p, (p, e)) <$> xs).*1 = xs.
Proof. induction xs as [|x xs IH]; [done|]. simpl. f_equal. exact IH. Qed.

(** C1, as amended: when the original body throws, the wrapper appends an
    entry whose [error] is the thrown value and then notifies the observers;
    the wrapped call ends as the notification ends, with [undefined] when
    the notification returns and with an observer's error when an observer
    throws.  When every registered observer returns without changing the
    observer arrays or the entry sequence, the notification does return: the
    wrapped call returns [undefined], the entry is the last one of the entry
    sequence, and every registered observer was called with it, in order. *)
Theorem throwing_method_returns_undefined (target : Target) (key : string)
    (method : Function) (fuel : nat) (this : Value) (args : list Value)
    (s s1 : Store) (thrown : Value) :
  body method this args s = (Throw thrown, s1) →
  let entry := new_entry thrown this (target_constructor_name target) (name method) s1 in
  let r := value (catchError behaviour target key {| value := method |}) fuel this args s in
  let notification := notifyObservers behaviour fuel entry (push_entry entry s1) in
  error entry = thrown ∧
  entries (push_entry entry s1) = entries s1 ++ [entry] ∧
  calls r = calls notification ∧
  final r = final notification ∧
  outcome r = match outcome notification with
              | Returned _ => Returned VUndefined
              | Thrown e => Thrown e
              | Unfinished => Unfinished
              end ∧
  ((∀ p, p ∈ observers s1 → ∀ e,
         returns_normally (behaviour p e) ∧ keeps_observers (behaviour p e) ∧
         keeps_entries (behaviour p e)) →
   length (observers s1) < fuel →
   outcome r = Returned VUndefined ∧
   entries (final r) = entries s1 ++ [entry] ∧
   calls r = (λ p, (p, entry)) <$> observers s1).
Proof.
  intros Hbody entry r notification. subst r notification. simpl. rewrite Hbody. simpl.
  unfold pushErrorToRegistry. fold entry.
  split; [done|]. split; [apply entries_push_entry|]. do 3 (split; [done|]).
  intros Hobs Hfuel. unfold notifyObservers.
  pose proof (for_of_observers_quiet behaviour entry
                (errorRegistryObservers (push_entry entry s1)) (observers s1)
                fuel 0 (push_entry entry s1)) as Hq.
  destruct Hq as [Hout Hcalls]; [done| |lia|].
  { intros p Hp. rewrite drop_0 in Hp. destruct (Hobs p Hp entry) as (? & ? & ?). done. }
  rewrite drop_0 in Hcalls.
  rewrite Hout. repeat split; [|done].
  apply (for_of_observers_invariant behaviour
           (λ s0, entries s0 = entries s1 ++ [entry])).
  - intros p Hp s0 Hs0. rewrite Hcalls, calls_fst in Hp.
    destruct (Hobs p Hp entry) as (_ & _ & Hkeep). by rewrite Hkeep.
  - apply entries_push_entry.
Qed.

(** C2: when the original body returns, the wrapped call returns the same
    value and leaves the store the body left; it calls no observer, so the
    entry sequence and the observer list are those the body left. *)
Theorem returning_method_passes_through (target : Target) (key : string)
    (method : Function) (fuel : nat) (this : Value) (args : list Value)
    (s s1 : Store) (result : Value) :
  body method this args s = (Normal result, s1) →
  let r := value (catchError behaviour target key {| value := method |}) fuel this args s in
  outcome r = Returned result ∧
  final r = s1 ∧
  calls r = [] ∧
  entries (final r) = entries s1 ∧
  observers (final r) = observers s1.
Proof. intros Hbody r. subst r. simpl. by rewrite Hbody. Qed.

End Wrapper.

(** ** Observers that change the observer list while they are notified *)

Section LiveIteration.

Variable behaviour : nat → ErrorRegistryEntry → Store → Completion Value * Store.

(** An observer registered from inside the loop, on the array the loop
    runs over, ends up at some position of that array, and the loop calls it
    there. *)
Lemma for_of_observers_registered (e : ErrorRegistryEntry) (a o o' i : nat)
    (xs : list nat) :
  (∀ p, returns_normally (behaviour p e) ∧ appends_only (behaviour p e)) →
  xs !! i = Some o →
  registers o' (behaviour o e) →
  (∀ j p, j < i → xs !! j = Some p → keeps_observer_field (behaviour p e)) →
  ∀ (d index : nat) (s : Store) (ys : list nat),
    index + d = i →
    errorRegistryObservers s = a →
    observerArrays s !! a = Some (xs ++ ys) →
    ∃ k, length xs ≤ k ∧
         ∀ fuel, k - index < fuel →
                 calls (for_of_observers behaviour fuel a index e s) !! (k - index)
                 = Some (o', e).
Proof.
  intros Hrely Ho Hreg Hfield.
  apply lookup_lt_Some in Ho as Hi.
  induction d as [|d IH]; intros index s ys Hd Hf Ha.
  - assert (index = i) as -> by lia.
    destruct (Hrely o) as [Hret _]. destruct (Hret s) as [v Hv].
    destruct (Hreg s (xs ++ ys)) as (ys' & Ha' & Hin); [by rewrite Hf|].
    destruct (behaviour o e s) as [c s'] eqn:Hb. simpl in *. subst c.
    apply list_elem_of_lookup in Hin as [k' Hk'].
    exists (length (xs ++ ys) + k'). rewrite length_app. split; [lia|].
    intros [|fuel] Hfuel; [lia|].
    rewrite (for_of_observers_next behaviour fuel a i o e s s' v); [|
      by rewrite (observers_at_lookup _ _ _ Ha), lookup_app_l | done].
    simpl.
    replace (length xs + length ys + k' - i)
      with (S (length xs + length ys + k' - S i)) by lia.
    simpl. rewrite Hf in Ha'.
    apply (for_of_observers_reaches behaviour e a _ o' ((xs ++ ys) ++ ys'))
      with (ys := []); [|by intros p _|by rewrite app_nil_r|lia|lia].
    rewrite lookup_app_r; rewrite length_app; [|lia].
    by replace (length xs + length ys + k' - (length xs + length ys)) with k' by lia.
  - assert (Hlt : index < length xs) by lia.
    destruct (lookup_lt_is_Some_2 xs index Hlt) as [p Hp].
    destruct (Hrely p) as [Hret Happ]. destruct (Hret s) as [v Hv].
    destruct (Happ s a _ Ha) as [ys' Ha'].
    pose proof (Hfield index p ltac:(lia) Hp s) as Hf'.
    destruct (behaviour p e s) as [c s'] eqn:Hb. simpl in *. subst c.
    rewrite <- app_assoc in Ha'.
    destruct (IH (S index) s' (ys ++ ys')) as (k & Hk & Hcalls); [lia|congruence|done|].
    exists k. split; [done|].
    intros [|fuel] Hfuel; [lia|].
    rewrite (for_of_observers_next behaviour fuel a index p e s s' v); [|
      by rewrite (observers_at_lookup _ _ _ Ha), lookup_app_l | done].
    simpl. replace (k - index) with (S (k - S index)) by lia. simpl.
    apply Hcalls. lia.
Qed.

(** Once the loop has called an observer that unregisters [cb], and as
    long as nobody registers [cb] again, [cb] is not in the observer list
    the loop leaves. *)
Lemma for_of_observers_unregistered (e : ErrorRegistryEntry) (a remover cb i : nat)
    (xs : list nat) :
  xs !! i = Some remover →
  (∀ s, (behaviour remover e s).2 = unregisterObserver cb s) →
  (∀ p, p ∈ take i xs →
        returns_normally (behaviour p e) ∧ appends_only (behaviour p e)) →
  (∀ p, never_registers cb (behaviour p e)) →
  ∀ (d index fuel : nat) (s : Store) (ys : list nat),
    index + d = i →
    observerArrays s !! a = Some (xs ++ ys) →
    i - index < fuel →
    cb ∉ observers (final (for_of_observers behaviour fuel a index e s)).
Proof.
  intros Hr Hun Hrely Hnever.
  apply lookup_lt_Some in Hr as Hi.
  assert (Hgone : ∀ s, cb ∉ observers (unregisterObserver cb s)).
  { intros s. rewrite observers_unregisterObserver. intros Hin.
    apply list_elem_of_filter in Hin as [Hne _]. done. }
  induction d as [|d IH]; intros index fuel s ys Hd Ha Hfuel.
  - assert (index = i) as -> by lia.
    destruct fuel as [|fuel]; [lia|].
    specialize (Hun s). simpl.
    rewrite (observers_at_lookup _ _ _ Ha), (lookup_app_l_Some _ _ _ _ Hr).
    destruct (behaviour remover e s) as [[v|err] s'] eqn:Hb; simpl in *; subst s'.
    + apply (for_of_observers_invariant behaviour (λ s0, cb ∉ observers s0)); [|done].
      intros p _ s0 Hs0. by apply (proj1 (Hnever p s0)).
    + done.
  - assert (Hlt : index < length xs) by lia.
    destruct fuel as [|fuel]; [lia|].
    destruct (lookup_lt_is_Some_2 xs index Hlt) as [p Hp].
    assert (Hin : p ∈ take i xs).
    { apply elem_of_take. exists index. split; [done|lia]. }
    destruct (Hrely p Hin) as (Hret & Happ). destruct (Hret s) as [v Hv].
    destruct (Happ s a _ Ha) as [ys' Ha'].
    destruct (behaviour p e s) as [c s'] eqn:Hb. simpl in Hv, Ha'. subst c.
    rewrite <- app_assoc in Ha'.
    rewrite (for_of_observers_next behaviour fuel a index p e s s' v); [|
      by rewrite (observers_at_lookup _ _ _ Ha), lookup_app_l | done].
    simpl. apply (IH (S index) fuel s' (ys ++ ys')); [lia|done|lia].
Qed.

End LiveIteration.

(** ** Notification from the wrapper's catch path *)

Section CatchPath.

Variable behaviour : nat → ErrorRegistryEntry → Store → Completion Value * Store.

(** The catch path is the loop over the observer array of the moment, run
    in the store that already holds the new entry. *)
Lemma catch_path (target : Target) (key : string) (method : Function)
    (fuel : nat) (this : Value) (args : list Value) (s s1 : Store) (thrown : Value) :
  body method this args s = (Throw thrown, s1) →
  let entry := new_entry thrown this (target_constructor_name target) (name method) s1 in
  let r := value (catchError behaviour target key {| value := method |}) fuel this args s in
  let loop := for_of_observers behaviour fuel (errorRegistryObservers s1) 0 entry
                (push_entry entry s1) in
  calls r = calls loop ∧ final r = final loop ∧
  outcome r = match outcome loop with
              | Returned _ => Returned VUndefined
              | Thrown e => Thrown e
              | Unfinished => Unfinished
              end.
Proof. intros Hbody. simpl. by rewrite Hbody. Qed.

(** C4, as amended: the calls made for an entry are for consecutive
    registrations of the observer array, from the first one on, each with
    that entry: no registration is called twice and none is called before
    an earlier one.  The registrations present when the entry is recorded
    are all called, once each, when the observers present return; and when
    the notification returns, every registration of the array was called,
    those pushed meanwhile after those present at the start. *)
Theorem registered_observers_called_in_order (target : Target) (key : string)
    (method : Function) (fuel : nat) (this : Value) (args : list Value)
    (s s1 : Store) (thrown : Value) (xs : list nat) :
  body method this args s = (Throw thrown, s1) →
  observerArrays s1 !! errorRegistryObservers s1 = Some xs →
  (∀ p e, appends_only (behaviour p e)) →
  let entry := new_entry thrown this (target_constructor_name target) (name method) s1 in
  let r := value (catchError behaviour target key {| value := method |}) fuel this args s in
  (∃ ys n, observers_at (final r) (errorRegistryObservers s1) = xs ++ ys ∧
           calls r = (λ p, (p, entry)) <$> take n (xs ++ ys) ∧
           (outcome r = Returned VUndefined →
            calls r = (λ p, (p, entry)) <$> (xs ++ ys))) ∧
  ((∀ p, p ∈ xs → ∀ e, returns_normally (behaviour p e)) →
   length xs ≤ fuel →
   take (length xs) (calls r) = (λ p, (p, entry)) <$> xs).
Proof.
  intros Hbody Ha Happ entry r.
  destruct (catch_path target key method fuel this args s s1 thrown Hbody)
    as (Hcalls & Hfinal & Hout).
  fold entry in Hcalls, Hfinal, Hout. fold r in Hcalls, Hfinal, Hout.
  rewrite Hcalls, Hfinal, Hout. split.
  - destruct (for_of_observers_segment behaviour entry (errorRegistryObservers s1)
                (λ p, Happ p entry) fuel 0 (push_entry entry s1) xs Ha)
      as (ys & n & Hfin & Hc).
    exists ys, n. rewrite drop_0 in Hc.
    split; [by apply observers_at_lookup|]. split; [done|].
    intros Hr.
    destruct (for_of_observers_returned behaviour entry (errorRegistryObservers s1)
                (λ p, Happ p entry) fuel 0 (push_entry entry s1) xs Ha)
      as (ys' & Hfin' & Hc').
    { destruct (outcome (for_of_observers _ _ _ _ _ _)) as [[]| |]; done. }
    rewrite Hfin in Hfin'. injection Hfin' as Heq. apply app_inv_head in Heq.
    subst ys'. by rewrite drop_0 in Hc'.
  - intros Hret Hfuel.
    pose proof (for_of_observers_prefix behaviour entry
                  (errorRegistryObservers s1) xs fuel 0 (push_entry entry s1) []) as H.
    rewrite Nat.sub_0_r, drop_0 in H. apply H; [by rewrite app_nil_r| |lia].
    intros p Hp. split; [by apply Hret | apply Happ].
Qed.

(** C8, as amended: when an observer throws, the wrapped call throws what
    the observer threw; the observers registered before it were called, it
    was called, and no observer after it.  The entry had been appended
    before the observers were called, and the registry runs no code after
    the throw: the call ends in the store the throwing observer left.  So
    the entry is still the last one of the entry sequence when the call
    ends, provided the observers called for it left that sequence alone. *)
Theorem observer_throw_propagates (target : Target) (key : string)
    (method : Function) (fuel : nat) (this : Value) (args : list Value)
    (s s1 : Store) (thrown : Value) (pre : list nat) (o : nat) (post : list nat)
    (err : Value) :
  body method this args s = (Throw thrown, s1) →
  observerArrays s1 !! errorRegistryObservers s1 = Some (pre ++ o :: post) →
  (∀ p, p ∈ pre → ∀ e,
        returns_normally (behaviour p e) ∧ appends_only (behaviour p e)) →
  (∀ e, throws err (behaviour o e)) →
  length pre < fuel →
  let entry := new_entry thrown this (target_constructor_name target) (name method) s1 in
  let r := value (catchError behaviour target key {| value := method |}) fuel this args s in
  outcome r = Thrown err ∧
  calls r = (λ p, (p, entry)) <$> (pre ++ [o]) ∧
  entries (push_entry entry s1) = entries s1 ++ [entry] ∧
  ((∀ p, p ∈ pre ++ [o] → ∀ e, keeps_entries (behaviour p e)) →
   entries (final r) = entries s1 ++ [entry]) ∧
  (∃ s0, behaviour o entry s0 = (Throw err, final r)).
Proof.
  intros Hbody Ha Hpre Ho Hfuel entry r.
  destruct (catch_path target key method fuel this args s s1 thrown Hbody)
    as (Hcalls & Hfinal & Hout).
  fold entry in Hcalls, Hfinal, Hout. fold r in Hcalls, Hfinal, Hout.
  destruct (for_of_observers_thrown behaviour entry (errorRegistryObservers s1)
              pre o post err (Ho entry) fuel 0 (push_entry entry s1) [])
    as [Hthrown Hc]; [by rewrite app_nil_r| |lia|lia|].
  { intros p Hp. rewrite drop_0 in Hp. by apply Hpre. }
  rewrite drop_0 in Hc.
  rewrite Hcalls, Hfinal, Hout, Hthrown, Hc.
  do 2 (split; [done|]). split; [apply entries_push_entry|]. split.
  - intros Hkeep.
    apply (for_of_observers_invariant behaviour
             (λ s0, entries s0 = entries s1 ++ [entry])).
    + intros p Hp s0 Hs0. rewrite Hc, calls_fst in Hp. by rewrite (Hkeep p Hp entry).
    + apply entries_push_entry.
  - destruct (for_of_observers_thrown_store behaviour entry (errorRegistryObservers s1)
                err fuel 0 (push_entry entry s1) Hthrown) as (p & s0 & Hlast & Hp).
    rewrite Hc, fmap_app in Hlast. simpl in Hlast. rewrite last_snoc in Hlast.
    injection Hlast as <-. by exists s0.
Qed.

(** C9, as amended: an observer registered by a running observer is
    called for the same entry, after the observers that were registered
    when the entry was recorded, provided the running observer pushes it on
    the array the notification runs over (no observer before it has called
    [unregisterObserver] during this notification) and the observers return. *)
Theorem observer_registered_meanwhile_is_called (target : Target) (key : string)
    (method : Function) (this : Value) (args : list Value)
    (s s1 : Store) (thrown : Value) (xs : list nat) (i o o' : nat) :
  body method this args s = (Throw thrown, s1) →
  observerArrays s1 !! errorRegistryObservers s1 = Some xs →
  xs !! i = Some o →
  (∀ e, registers o' (behaviour o e)) →
  (∀ j p, j < i → xs !! j = Some p → ∀ e, keeps_observer_field (behaviour p e)) →
  (∀ p e, returns_normally (behaviour p e) ∧ appends_only (behaviour p e)) →
  let entry := new_entry thrown this (target_constructor_name target) (name method) s1 in
  ∃ k, length xs ≤ k ∧
       ∀ fuel, k < fuel →
         calls (value (catchError behaviour target key {| value := method |})
                  fuel this args s) !! k = Some (o', entry).
Proof.
  intros Hbody Ha Ho Hreg Hfield Hrely entry.
  destruct (for_of_observers_registered behaviour entry (errorRegistryObservers s1)
              o o' i xs (λ p, Hrely p entry) Ho (Hreg entry)
              (λ j p Hj Hp, Hfield j p Hj Hp entry)
              i 0 (push_entry entry s1) [])
    as (k & Hk & Hcalls); [lia|done|by rewrite app_nil_r|].
  exists k. split; [done|]. intros fuel Hfuel.
  destruct (catch_path target key method fuel this args s s1 thrown Hbody)
    as (Hc & _ & _).
  fold entry in Hc. rewrite Hc.
  specialize (Hcalls fuel). rewrite Nat.sub_0_r in Hcalls. apply Hcalls. lia.
Qed.

(** C10, as amended: an observer that a running observer unregisters is
    still called for the entry being notified, at its place, when the
    observers before it return; it is then no longer in the observer list,
    and, as long as nobody registers it again, it is called for no entry
    recorded afterwards. *)
Theorem observer_unregistered_meanwhile_is_still_called (target : Target)
    (key : string) (method : Function) (fuel : nat) (this : Value)
    (args : list Value) (s s1 : Store) (thrown : Value) (xs : list nat)
    (i j remover cb : nat) :
  body method this args s = (Throw thrown, s1) →
  observerArrays s1 !! errorRegistryObservers s1 = Some xs →
  xs !! i = Some remover →
  xs !! j = Some cb →
  i < j →
  (∀ e s0, (behaviour remover e s0).2 = unregisterObserver cb s0) →
  (∀ p, p ∈ take j xs → ∀ e,
        returns_normally (behaviour p e) ∧ appends_only (behaviour p e)) →
  (∀ p e, never_registers cb (behaviour p e)) →
  j < fuel →
  let entry := new_entry thrown this (target_constructor_name target) (name method) s1 in
  let r := value (catchError behaviour target key {| value := method |}) fuel this args s in
  calls r !! j = Some (cb, entry) ∧
  (cb ∉ observers (final r)) ∧
  (∀ fuel' entry', cb ∉ (calls (notifyObservers behaviour fuel' entry' (final r))).*1).
Proof.
  intros Hbody Ha Hi Hj Hij Hun Hahead Hnever Hfuel entry r.
  destruct (catch_path target key method fuel this args s s1 thrown Hbody)
    as (Hcalls & Hfinal & _).
  fold entry in Hcalls, Hfinal. fold r in Hcalls, Hfinal.
  assert (Hgone : cb ∉ observers (final r)).
  { rewrite Hfinal.
    apply (for_of_observers_unregistered behaviour entry (errorRegistryObservers s1)
             remover cb i xs Hi (Hun entry)) with (d := i) (ys := []);
      [|by intros p|lia|by rewrite app_nil_r|lia].
    intros p Hp. apply Hahead.
    apply elem_of_take in Hp as (i' & Hp & Hlt).
    apply elem_of_take. exists i'. split; [done|lia]. }
  split; [|split]; [|exact Hgone|].
  - rewrite Hcalls.
    pose proof (for_of_observers_reaches behaviour entry (errorRegistryObservers s1)
                  j cb xs Hj (λ p Hp, Hahead p Hp entry)
                  fuel 0 (push_entry entry s1) []) as H.
    rewrite Nat.sub_0_r in H. apply H; [by rewrite app_nil_r|lia|lia].
  - intros fuel' entry'. unfold notifyObservers.
    apply for_of_observers_never_called; [|done].
    intros p. apply Hnever.
Qed.

End CatchPath.

(** ** The two sequences across calls *)

Section Sequences.

Variable behaviour : nat → ErrorRegistryEntry → Store → Completion Value * Store.

(** C6: [clearRegistry] leaves the entry sequence empty, whatever it held;
    the observer list, the observer arrays, the clock and the console are
    as before, the entry arrays that existed still hold what they held, and
    the call returns without having called an observer. *)
Theorem clearRegistry_empties_the_entries_only (fuel : nat) (s : Store) :
  entries (clearRegistry s) = [] ∧
  observers (clearRegistry s) = observers s ∧
  observerArrays (clearRegistry s) = observerArrays s ∧
  errorRegistryObservers (clearRegistry s) = errorRegistryObservers s ∧
  clock (clearRegistry s) = clock s ∧
  console (clearRegistry s) = console s ∧
  entryArrays s ⊆ entryArrays (clearRegistry s) ∧
  perform behaviour fuel ClearRegistry s =
    {| outcome := Returned VUndefined; final := clearRegistry s; calls := [] |}.
Proof.
  split; [apply entries_clearRegistry|]. repeat split.
  unfold clearRegistry; simpl. apply insert_subseteq.
  apply not_elem_of_dom, is_fresh.
Qed.

(** What one call does to the two sequences, when the observers and the
    method body leave them alone. *)
Lemma perform_sequences (fuel : nat) (c : Call) (s : Store) :
  (∀ p e, leaves_registry (behaviour p e)) →
  body_leaves_registry c →
  entries (final (perform behaviour fuel c s)) = spec_entries_after c s ∧
  observers (final (perform behaviour fuel c s)) = spec_observers_after c s.
Proof.
  intros Hobs Hbody. destruct c as [| |o|o| |target method this args]; simpl.
  - done.
  - split; [apply entries_clearRegistry|done].
  - split; [done|apply observers_registerObserver].
  - split; [done|apply observers_unregisterObserver].
  - pose proof (entries_logRegistry s) as He.
    pose proof (observers_logRegistry s) as Ho.
    destruct (logRegistry s) as [[[]|e] s']; done.
  - simpl in Hbody. destruct (Hbody s) as [He Ho].
    destruct (body method this args s) as [[v|e] s1] eqn:Hb; simpl in *; [done|].
    unfold pushErrorToRegistry, notifyObservers.
    set (entry := new_entry e this (target_constructor_name target) (name method) s1).
    apply (for_of_observers_invariant behaviour
             (λ s0, entries s0 = entries s ++ [entry] ∧ observers s0 = observers s)).
    + intros p _ s0 [H1 H2]. destruct (Hobs p entry s0) as [-> ->]. done.
    + by rewrite entries_push_entry, observers_push_entry, He, Ho.
Qed.

(** C5: with observers and method bodies that leave the registry alone,
    each call changes the entry sequence and the observer list exactly as
    the specification says: a throwing wrapped call appends one entry,
    [clearRegistry] empties the entry sequence, [registerObserver] and
    [unregisterObserver] change the observer list, and nothing else changes
    either; so [N] throwing wrapped calls make the entry sequence [N] longer. *)
Theorem entries_and_observers_change_only_as_specified (fuel : nat) :
  (∀ p e, leaves_registry (behaviour p e)) →
  (∀ c s, body_leaves_registry c →
          entries (final (perform behaviour fuel c s)) = spec_entries_after c s ∧
          observers (final (perform behaviour fuel c s)) = spec_observers_after c s) ∧
  (∀ cs s, Forall (λ c, throwing_call c ∧ body_leaves_registry c) cs →
           length (entries (session behaviour fuel cs s).1) =
           length (entries s) + length cs).
Proof.
  intros Hobs. split.
  - intros c s Hc. by apply perform_sequences.
  - induction cs as [|c cs IH]; intros s Hcs; simpl.
    + lia.
    + apply Forall_cons in Hcs as [[Hthrow Hbody] Hcs].
      rewrite (IH _ Hcs).
      destruct (perform_sequences fuel c s Hobs Hbody) as [-> _].
      destruct c as [| |o|o| |target method this args]; try done.
      destruct Hthrow as [e He]. specialize (He s). simpl.
      destruct (body method this args s) as [k s1]. simpl in He. subst k.
      rewrite length_app. simpl. lia.
Qed.

Lemma filter_ne_absent (cb : nat) (xs : list nat) :
  cb ∉ xs → filter (λ o, o ≠ cb) xs = xs.
Proof.
  induction xs as [|x xs IH]; intros Hcb; [done|].
  apply not_elem_of_cons in Hcb as [Hne Hcb].
  rewrite filter_cons_True by done. f_equal. by apply IH.
Qed.




End Sequences.

(** ** The registry's own methods, used by application code *)

Lemma registerObserver_appends (o : nat) (s : Store) (a : nat) (xs : list nat) :
  observerArrays s !! a = Some xs →
  ∃ ys, observerArrays (registerObserver o s) !! a = Some (xs ++ ys).
Proof.
  intros Ha. unfold registerObserver; simpl.
  destruct (decide (errorRegistryObservers s = a)) as [->|Hne].
  - exists [o]. by rewrite lookup_insert_eq, (observers_at_lookup _ _ _ Ha).
  - exists []. by rewrite lookup_insert_ne, app_nil_r.
Qed.

Lemma unregisterObserver_appends (o : nat) (s : Store) (a : nat) (xs : list nat) :
  observerArrays s !! a = Some xs →
  ∃ ys, observerArrays (unregisterObserver o s) !! a = Some (xs ++ ys).
Proof.
  intros Ha. exists []. rewrite app_nil_r, unregisterObserver_old_arrays; [done|].
  by rewrite Ha.
Qed.

Lemma registerObserver_registers (v : Value) (o : nat) :
  registers o (λ s, (Normal v, registerObserver o s)).
Proof.
  intros s xs Ha. exists [o]. simpl. split; [|apply list_elem_of_here].
  unfold registerObserver; simpl.
  by rewrite lookup_insert_eq, (observers_at_lookup _ _ _ Ha).
Qed.

Lemma registerObserver_never_registers (v : Value) (cb o : nat) :
  o ≠ cb → never_registers cb (λ s, (Normal v, registerObserver o s)).
Proof.
  intros Hne s. simpl. split.
  - intros Hcb. rewrite observers_registerObserver.
    apply not_elem_of_app. split; [done|].
    apply not_elem_of_cons. split; [by intros ->|apply not_elem_of_nil].
  - intros a xs Ha Hcb. unfold observers_at, registerObserver; simpl.
    destruct (decide (errorRegistryObservers s = a)) as [->|Hne'].
    + rewrite lookup_insert_eq. simpl. unfold observers_at. rewrite Ha. simpl.
      apply not_elem_of_app. split; [done|].
      apply not_elem_of_cons. split; [by intros ->|apply not_elem_of_nil].
    + rewrite lookup_insert_ne by done. by rewrite Ha.
Qed.

Lemma unregisterObserver_never_registers (v : Value) (cb o : nat) :
  never_registers cb (λ s, (Normal v, unregisterObserver o s)).
Proof.
  intros s. simpl. split.
  - intros Hcb. rewrite observers_unregisterObserver. intros Hin.
    apply list_elem_of_filter in Hin as [_ Hin]. done.
  - intros a xs Ha Hcb. unfold observers_at.
    rewrite unregisterObserver_old_arrays by by rewrite Ha. by rewrite Ha.
Qed.

Lemma unchanged_never_registers (cb : nat) (c : Completion Value) :
  never_registers cb (λ s, (c, s)).
Proof.
  intros s. simpl. split; [done|]. intros a xs Ha Hcb.
  unfold observers_at. by rewrite Ha.
Qed.

Lemma unchanged_appends_only (c : Completion Value) : appends_only (λ s, (c, s)).
Proof. intros s a xs Ha. exists []. by rewrite app_nil_r. Qed.

Lemma silent_quiet (p : nat) (e : ErrorRegistryEntry) :
  returns_normally (silent p e) ∧ keeps_observers (silent p e) ∧
  keeps_entries (silent p e).
Proof. split; [by exists VUndefined|]. split; by intros s. Qed.

Lemma registering_behaves (p : nat) (e : ErrorRegistryEntry) :
  returns_normally (registering p e) ∧ appends_only (registering p e).
Proof.
  split; [intros s; exists VUndefined; by destruct p as [|[|[|p]]]|].
  intros s a xs Ha. destruct p as [|[|[|p]]]; simpl;
    try (exists []; by rewrite app_nil_r).
  by apply registerObserver_appends.
Qed.

Lemma unregistering_behaves (p : nat) (e : ErrorRegistryEntry) :
  returns_normally (unregistering p e) ∧ appends_only (unregistering p e) ∧
  never_registers 0 (unregistering p e).
Proof.
  split; [intros s; exists VUndefined; by destruct p as [|[|[|[|[|p]]]]]|].
  split.
  - intros s a xs Ha. destruct p as [|[|[|[|[|p]]]]]; simpl;
      try (exists []; by rewrite app_nil_r).
    by apply unregisterObserver_appends.
  - destruct p as [|[|[|[|[|p]]]]];
      try apply (unchanged_never_registers 0 (Normal VUndefined)).
    apply (unregisterObserver_never_registers VUndefined 0 0).
Qed.

Lemma demo_appends_only (p : nat) (e : ErrorRegistryEntry) : appends_only (demo p e).
Proof.
  intros s a xs Ha. destruct p as [|[|[|[|[|[|p]]]]]]; simpl;
    try (exists []; by rewrite app_nil_r).
  - by apply registerObserver_appends.
  - destruct (unregisterObserver_appends 5 s a xs Ha) as [ys1 H1].
    destruct (registerObserver_appends 0 _ a _ H1) as [ys2 H2].
    exists (ys1 ++ ys2). by rewrite app_assoc.
  - by apply unregisterObserver_appends.
  - by apply registerObserver_appends.
Qed.

(** ** The claims on example programs *)

(** C1 on an example: with one silent observer registered twice, the
    wrapped [riskyOperation] returns [undefined] and the entry is recorded. *)
Lemma throwing_method_returns_undefined_witness :
  outcome (risky_call silent 3 [0; 0]) = Returned VUndefined ∧
  entries (final (risky_call silent 3 [0; 0])) = [risky_entry] ∧
  calls (risky_call silent 3 [0; 0]) = [(0, risky_entry); (0, risky_entry)].
Proof.
  pose proof (throwing_method_returns_undefined silent (PrototypeOf "MockClass")
                "riskyOperation" riskyOperation 3 (VObject 7) []
                (registry_with [0; 0]) (registry_with [0; 0]) something_went_wrong
                eq_refl) as H.
  cbv zeta in H. destruct H as (_ & _ & _ & _ & _ & H).
  apply H.
  - intros p _ e. apply silent_quiet.
  - vm_compute. lia.
Defined.

(** C1 as stated fails: with an observer that throws, the wrapped call does
    not return [undefined]; it throws what the observer threw. *)
Lemma throwing_method_counterexample :
  body riskyOperation (VObject 7) [] (registry_with [1]) =
    (Throw something_went_wrong, registry_with [1]) ∧
  outcome (risky_call demo 10 [1]) = Thrown observer_failed.
Proof. split; reflexivity. Qed.

(** C2 on an example: the wrapped [echo] returns its argument. *)
Lemma returning_method_passes_through_witness :
  outcome (value (catchError demo (PrototypeOf "MockClass") "echo" {| value := echo |})
             1 (VObject 7) [VNumber 42] (registry_with [1])) = Returned (VNumber 42) ∧
  calls (value (catchError demo (PrototypeOf "MockClass") "echo" {| value := echo |})
           1 (VObject 7) [VNumber 42] (registry_with [1])) = [].
Proof.
  pose proof (returning_method_passes_through demo (PrototypeOf "MockClass") "echo"
                echo 1 (VObject 7) [VNumber 42] (registry_with [1]) (registry_with [1])
                (VNumber 42) eq_refl) as H.
  destruct H as (H1 & _ & H2 & _). split; [exact H1|exact H2].
Defined.

(** C4 on an example: observers [2] and [0] are registered; [2] registers
    [0] once more while it is notified.  The first two calls are for the two
    registrations of the start; the third is for the new one. *)
Lemma registered_observers_called_in_order_witness :
  take 2 (calls (risky_call registering 4 [2; 0])) = [(2, risky_entry); (0, risky_entry)] ∧
  calls (risky_call registering 4 [2; 0]) =
    [(2, risky_entry); (0, risky_entry); (0, risky_entry)].
Proof.
  pose proof (registered_observers_called_in_order registering (PrototypeOf "MockClass")
                "riskyOperation" riskyOperation 4 (VObject 7) []
                (registry_with [2; 0]) (registry_with [2; 0]) something_went_wrong
                [2; 0] eq_refl eq_refl
                (λ p e, proj2 (registering_behaves p e))) as H.
  cbv zeta in H. destruct H as [(ys & n & Hys & _ & Hall) Hfirst].
  split.
  - apply Hfirst; [|vm_compute; lia].
    intros p _ e. apply registering_behaves.
  - assert (ys = [0]) as -> by (vm_compute in Hys; congruence).
    by apply Hall.
Defined.

(** C4 as stated fails: observer [0] is registered when the entry is
    recorded, after observer [1], which throws; observer [0] is not called. *)
Lemma registered_observers_counterexample :
  observers (registry_with [1; 0]) = [1; 0] ∧
  calls (risky_call demo 10 [1; 0]) = [(1, risky_entry)].
Proof. split; reflexivity. Qed.

(** C8 on an example: observers [0], [1], [0] are registered and [1]
    throws.  The wrapped call throws what [1] threw; [0] and [1] were called
    and the last [0] was not; the entry is in the entry sequence. *)
Lemma observer_throw_propagates_witness :
  outcome (risky_call demo 2 [0; 1; 0]) = Thrown observer_failed ∧
  calls (risky_call demo 2 [0; 1; 0]) = [(0, risky_entry); (1, risky_entry)] ∧
  entries (final (risky_call demo 2 [0; 1; 0])) = [risky_entry].
Proof.
  pose proof (observer_throw_propagates demo (PrototypeOf "MockClass")
                "riskyOperation" riskyOperation 2 (VObject 7) []
                (registry_with [0; 1; 0]) (registry_with [0; 1; 0]) something_went_wrong
                [0] 1 [0] observer_failed eq_refl eq_refl) as H.
  destruct H as (H1 & H2 & _ & H3 & _).
  - intros p Hp e. apply list_elem_of_singleton in Hp as ->.
    split; [by exists VUndefined|].
    apply (unchanged_appends_only (Normal VUndefined)).
  - by intros e s0.
  - vm_compute; lia.
  - split; [exact H1|]. split; [exact H2|]. apply H3.
    intros p Hp e s0.
    apply elem_of_app in Hp as [Hp|Hp]; apply list_elem_of_singleton in Hp as ->; done.
Defined.

(** C8 as stated fails: observer [8] calls [clearRegistry] and observer
    [1], registered after it, throws.  The wrapped call throws what [1]
    threw, and the entry is not in the registry. *)
Lemma observer_throw_counterexample :
  outcome (risky_call clearing_then_failing 10 [8; 1]) = Thrown observer_failed ∧
  calls (risky_call clearing_then_failing 10 [8; 1]) = [(8, risky_entry); (1, risky_entry)] ∧
  entries (final (risky_call clearing_then_failing 10 [8; 1])) = [].
Proof. repeat split; reflexivity. Qed.

(** C9 on an example: observer [2] registers observer [0] while it is
    notified, and [0] is called for the same entry, right after [2]. *)
Lemma observer_registered_meanwhile_is_called_witness :
  ∃ k, 1 ≤ k ∧
       ∀ fuel, k < fuel →
               calls (risky_call registering fuel [2]) !! k = Some (0, risky_entry).
Proof.
  apply (observer_registered_meanwhile_is_called registering
           (PrototypeOf "MockClass") "riskyOperation" riskyOperation (VObject 7) []
           (registry_with [2]) (registry_with [2]) something_went_wrong
           [2] 0 2 0 eq_refl eq_refl eq_refl
           (λ e, registerObserver_registers VUndefined 0)).
  - intros j p Hj. lia.
  - intros p e. apply registering_behaves.
Defined.

(** C9 as stated fails: observer [3] calls [unregisterObserver] and then
    registers observer [0].  The registration lands on the new array, the
    notification runs over the old one, and it returns without having called
    observer [0], which is in the observer list afterwards. *)
Lemma observer_registered_meanwhile_counterexample :
  outcome (risky_call demo 10 [3]) = Returned VUndefined ∧
  calls (risky_call demo 10 [3]) = [(3, risky_entry)] ∧
  observers (final (risky_call demo 10 [3])) = [3; 0].
Proof. repeat split; reflexivity. Qed.

(** C10 on an example: observer [4] unregisters observer [0], which is
    registered after it.  Observer [0] is still called for this entry, is
    not in the observer list afterwards, and the next notification does not
    call it. *)
Lemma observer_unregistered_meanwhile_is_still_called_witness :
  calls (risky_call unregistering 3 [4; 0]) !! 1 = Some (0, risky_entry) ∧
  (0 ∉ observers (final (risky_call unregistering 3 [4; 0]))) ∧
  (0 ∉ (calls (notifyObservers unregistering 3 risky_entry
                 (final (risky_call unregistering 3 [4; 0])))).*1).
Proof.
  pose proof (observer_unregistered_meanwhile_is_still_called unregistering
                (PrototypeOf "MockClass") "riskyOperation" riskyOperation 3 (VObject 7) []
                (registry_with [4; 0]) (registry_with [4; 0]) something_went_wrong
                [4; 0] 0 1 4 0 eq_refl eq_refl eq_refl eq_refl) as H.
  destruct H as (H1 & H2 & H3).
  - lia.
  - intros e s0. reflexivity.
  - intros p _ e. split; apply unregistering_behaves.
  - intros p e. apply unregistering_behaves.
  - lia.
  - split; [exact H1|]. split; [exact H2|apply H3].
Defined.

(** C10 as stated fails: observer [4] unregisters observer [0], then
    observer [1] throws, and observer [0] is not called for the entry. *)
Lemma observer_unregistered_meanwhile_counterexample :
  observers (registry_with [4; 1; 0]) = [4; 1; 0] ∧
  outcome (risky_call demo 10 [4; 1; 0]) = Thrown observer_failed ∧
  calls (risky_call demo 10 [4; 1; 0]) = [(4, risky_entry); (1, risky_entry)].
Proof. repeat split; reflexivity. Qed.

Lemma silent_leaves_registry (p : nat) (e : ErrorRegistryEntry) :
  leaves_registry (silent p e).
Proof. by intros s. Qed.

Lemma risky_call_throws (target : Target) :
  throwing_call (Invoke target riskyOperation (VObject 7) []) ∧
  body_leaves_registry (Invoke target riskyOperation (VObject 7) []).
Proof. split; [by exists something_went_wrong|by intros s]. Qed.

(** C5 on an example: three throwing calls in a new registry leave three
    entries, and registering an observer leaves the entries alone. *)
Lemma entries_and_observers_change_only_as_specified_witness :
  length (entries (session silent 2
            [Invoke (PrototypeOf "MockClass") riskyOperation (VObject 7) [];
             Invoke (PrototypeOf "MockClass") riskyOperation (VObject 7) [];
             Invoke (PrototypeOf "MockClass") riskyOperation (VObject 7) []]
            (registry_with [0])).1) = 3 ∧
  entries (final (perform silent 2 (RegisterObserver 5) (registry_with [0]))) = [] ∧
  observers (final (perform silent 2 (RegisterObserver 5) (registry_with [0]))) = [0; 5].
Proof.
  destruct (entries_and_observers_change_only_as_specified silent 2
              silent_leaves_registry) as [Hone Hmany].
  split.
  - apply (Hmany [_; _; _] (registry_with [0])).
    repeat (apply Forall_cons_2; [apply risky_call_throws|]). apply Forall_nil_2.
  - apply (Hone (RegisterObserver 5) (registry_with [0]) I).
Defined.

(** C6 on an example: after two throwing calls, [clearRegistry] leaves no
    entry and the observer list as it was. *)
Lemma clearRegistry_empties_the_entries_only_witness :
  entries (clearRegistry (final (risky_call silent 2 [0]))) = [] ∧
  observers (clearRegistry (final (risky_call silent 2 [0]))) = [0].
Proof.
  destruct (clearRegistry_empties_the_entries_only silent 0
              (final (risky_call silent 2 [0]))) as (H1 & H2 & _).
  split; [exact H1|exact H2].
Defined.



(** ** The name recorded for the class *)

(** X1: For an instance method the entry names the class that declares the
    method and the method's key, whatever the receiver and the arguments. *)
Lemma instance_method_entry_names
    (behaviour : nat → ErrorRegistryEntry → Store → Completion Value * Store)
    (class_name key : string)
    (implementation : Value → list Value → Store → Completion Value * Store)
    (fuel : nat) (this : Value) (args : list Value) (s s1 : Store) (thrown : Value) :
  implementation this args s = (Throw thrown, s1) →
  (∀ p e, keeps_entries (behaviour p e)) →
  ∃ entry,
    entries (final (decorated behaviour class_name false key implementation
                      fuel this args s)) = entries s1 ++ [entry] ∧
    constructor_name entry = class_name ∧
    method_name entry = key.
Proof.
  intros Hbody Hkeep.
  exists (new_entry thrown this class_name key s1). split; [|done].
  unfold decorated. simpl. rewrite Hbody. simpl.
  unfold pushErrorToRegistry, notifyObservers.
  apply (for_of_observers_invariant behaviour
           (λ s0, entries s0 = entries s1 ++ [new_entry thrown this class_name key s1])).
  - intros p _ s0 Hs0. by rewrite Hkeep.
  - apply entries_push_entry.
Qed.

Lemma instance_method_entry_names_witness :
  ∃ entry,
    entries (final (decorated silent "MockClass" false "riskyOperation"
                      (body riskyOperation) 2 (VObject 7) [VNumber 1; VNumber 2]
                      (registry_with [0]))) = [] ++ [entry] ∧
    constructor_name entry = "MockClass" ∧
    method_name entry = "riskyOperation".
Proof.
  apply (instance_method_entry_names silent "MockClass" "riskyOperation"
           (body riskyOperation) 2 (VObject 7) [VNumber 1; VNumber 2]
           (registry_with [0]) (registry_with [0]) something_went_wrong eq_refl).
  intros p e. apply silent_quiet.
Defined.

(** C3 fails for a static method: [static parse() { throw ... }] declared
    in class [Util] with the decorator.  The decorator receives the class
    itself, whose [constructor] is [Function], and the entry names
    ["Function"], not ["Util"]; the method name is the key. *)
Theorem static_method_entry_names_Function :
  constructor_name <$> entries (final (decorated silent "Util" true "parse"
                                         (body riskyOperation) 2 (VObject 7) []
                                         (newErrorRegistry 0))) = ["Function"] ∧
  method_name <$> entries (final (decorated silent "Util" true "parse"
                                    (body riskyOperation) 2 (VObject 7) []
                                    (newErrorRegistry 0))) = ["parse"] ∧
  constructor_name <$> entries (final (decorated silent "Util" false "parse"
                                         (body riskyOperation) 2 (VObject 7) []
                                         (newErrorRegistry 0))) = ["Util"].
Proof. repeat split; reflexivity. Qed.

(** ** A notification that keeps growing *)

Section Growing.

Variable behaviour : nat → ErrorRegistryEntry → Store → Completion Value * Store.

(** The length up to which the engine grows the observer array. *)
Variable capacity : nat.

(** The observers that register one more observer of their kind. *)
Variable G : nat → Prop.

(** While every observer called registers one more, the loop stays short of
    the end of the array: each turn calls one observer and makes the array
    one longer. *)
Lemma for_of_observers_growing (e : ErrorRegistryEntry) (a : nat) :
  (∀ p, G p → registers_one_more capacity G (behaviour p e)) →
  ∀ (fuel index : nat) (s : Store),
    errorRegistryObservers s = a →
    Forall G (observers s) →
    index < length (observers s) →
    length (observers s) + fuel ≤ capacity →
    let r := for_of_observers behaviour fuel a index e s in
    outcome r = Unfinished ∧
    length (calls r) = fuel ∧
    Forall (λ c, G c.1 ∧ c.2 = e) (calls r) ∧
    length (observers (final r)) = length (observers s) + fuel.
Proof.
  intros Hgrow.
  induction fuel as [|fuel IH]; intros index s Hf Hall Hlt Hcap; simpl.
  - split; [done|]. split; [done|]. split; [apply Forall_nil_2|lia].
  - destruct (lookup_lt_is_Some_2 _ index Hlt) as [p Hp].
    assert (Hg : G p) by exact (proj1 (Forall_lookup _ _) Hall index p Hp).
    destruct (Hgrow p Hg s) as (v & q & Hq & Hv & Hfield & Hobs); [lia|].
    unfold observers in Hp. rewrite Hf in Hp. rewrite Hp.
    destruct (behaviour p e s) as [c s'] eqn:Hb. simpl in Hv, Hfield, Hobs.
    subst c. simpl.
    destruct (IH (S index) s') as (H1 & H2 & H3 & H4).
    + by rewrite Hfield.
    + rewrite Hobs. apply Forall_app. split; [done|]. by apply Forall_singleton.
    + rewrite Hobs, length_app. simpl. lia.
    + rewrite Hobs, length_app. simpl. lia.
    + split; [done|]. split; [by rewrite H2|].
      split; [by apply Forall_cons_2|].
      rewrite H4, Hobs, length_app. simpl. lia.
Qed.

(** X2: The notification runs over the live observer array.  When the
    observers registered are of a kind that registers one more observer of
    that kind at every call, a wrapped call that throws does not come back
    for as long as the array can grow: after any number of observer calls
    within the array's capacity the notification is still running, that
    many observers of the kind have been called with the entry, and the
    observer list is that much longer. *)
Theorem growing_observers_keep_notification_running (target : Target) (key : string)
    (method : Function) (fuel : nat) (this : Value) (args : list Value)
    (s s1 : Store) (thrown : Value) :
  body method this args s = (Throw thrown, s1) →
  (∀ p e, G p → registers_one_more capacity G (behaviour p e)) →
  observers s1 ≠ [] →
  Forall G (observers s1) →
  length (observers s1) + fuel ≤ capacity →
  let entry := new_entry thrown this (target_constructor_name target) (name method) s1 in
  let r := value (catchError behaviour target key {| value := method |}) fuel this args s in
  outcome r = Unfinished ∧
  length (calls r) = fuel ∧
  Forall (λ c, G c.1 ∧ c.2 = entry) (calls r) ∧
  length (observers (final r)) = length (observers s1) + fuel.
Proof.
  intros Hbody Hgrow Hne Hall Hcap entry r.
  destruct (catch_path behaviour target key method fuel this args s s1 thrown Hbody)
    as (Hcalls & Hfinal & Hout).
  fold entry in Hcalls, Hfinal, Hout. fold r in Hcalls, Hfinal, Hout.
  destruct (for_of_observers_growing entry (errorRegistryObservers s1)
              (λ p Hp, Hgrow p entry Hp) fuel 0 (push_entry entry s1))
    as (H1 & H2 & H3 & H4).
  - done.
  - by rewrite observers_push_entry.
  - rewrite observers_push_entry. destruct (observers s1); [done|simpl; lia].
  - by rewrite observers_push_entry.
  - rewrite observers_push_entry in H4.
    rewrite Hout, Hcalls, Hfinal, H1. done.
Qed.

End Growing.

(** On an example: observer [5] registers itself again at every call.  With
    room for a hundred observers, the notification is still running after
    ninety-nine calls, all of observer [5], and the list holds a hundred. *)
Lemma growing_observers_keep_notification_running_witness :
  outcome (risky_call demo 99 [5]) = Unfinished ∧
  length (calls (risky_call demo 99 [5])) = 99 ∧
  Forall (λ c, c.1 = 5 ∧ c.2 = risky_entry) (calls (risky_call demo 99 [5])) ∧
  length (observers (final (risky_call demo 99 [5]))) = 100.
Proof.
  apply (growing_observers_keep_notification_running demo 100 (λ p, p = 5)
           (PrototypeOf "MockClass") "riskyOperation" riskyOperation 99 (VObject 7) []
           (registry_with [5]) (registry_with [5]) something_went_wrong eq_refl).
  - intros p e -> s0 _. exists VUndefined, 5. simpl.
    split; [done|]. split; [done|]. split; [done|]. apply observers_registerObserver.
  - done.
  - by apply Forall_singleton.
  - vm_compute; lia.
Defined.

(** ** The log *)

Lemma get_property_readable (v : Value) (p : string) :
  readable v → get_property v p = Normal (read v p).
Proof.
  intros Hv. unfold read. destruct v; simpl in *; try done;
    repeat case_match; done.
Qed.

Lemma get_property_unreadable (v : Value) (p : string) :
  ¬ readable v → get_property v p = Throw (type_error_reading v p).
Proof. intros Hv. destruct v; simpl in *; try done; by destruct Hv. Qed.

Lemma log_entries_readable (es : list ErrorRegistryEntry) (s : Store) :
  Forall (λ entry, readable (error entry)) es →
  (log_entries es s).1 = Normal tt ∧
  console (log_entries es s).2 = console s ++ (log_record_of <$> es).
Proof.
  revert s. induction es as [|entry rest IH]; intros s Hes; simpl.
  - by rewrite app_nil_r.
  - apply Forall_cons in Hes as [He Hrest].
    rewrite !(get_property_readable _ _ He).
    match goal with |- context [log_entries rest ?s'] =>
      destruct (IH s' Hrest) as [-> ->] end.
    split; [done|]. simpl. by rewrite <- app_assoc.
Qed.

(** The loop of [logRegistry] stops at the first entry whose [error] is
    [undefined] or [null], with the [TypeError] of reading its [name]. *)
Lemma log_entries_unreadable (good : list ErrorRegistryEntry) (bad : ErrorRegistryEntry)
    (rest : list ErrorRegistryEntry) (s : Store) :
  Forall (λ entry, readable (error entry)) good →
  ¬ readable (error bad) →
  (log_entries (good ++ bad :: rest) s).1 = Throw (type_error_reading (error bad) "name") ∧
  console (log_entries (good ++ bad :: rest) s).2 = console s ++ (log_record_of <$> good).
Proof.
  intros Hgood Hbad. revert s. induction good as [|entry good IH]; intros s; simpl.
  - rewrite (get_property_unreadable _ _ Hbad). simpl. by rewrite app_nil_r.
  - apply Forall_cons in Hgood as [He Hgood].
    rewrite !(get_property_readable _ _ He).
    match goal with |- context [log_entries _ ?s'] =>
      destruct (IH Hgood s') as [-> ->] end.
    split; [done|]. simpl. by rewrite <- app_assoc.
Qed.

(** X3: When the [error] of every entry is something other than [undefined]
    and [null], [logRegistry] returns after writing one record per entry, in
    the order of the entries, after what the console held: the name and the
    message read from the error, and the other four fields of the entry.  It
    changes nothing else, so a second call writes the same records again. *)
Theorem logRegistry_writes_every_entry (s : Store) :
  Forall (λ entry, readable (error entry)) (entries s) →
  (logRegistry s).1 = Normal tt ∧
  console (logRegistry s).2 = console s ++ (log_record_of <$> entries s) ∧
  entries (logRegistry s).2 = entries s ∧
  observers (logRegistry s).2 = observers s ∧
  console (logRegistry (logRegistry s).2).2 =
    console s ++ (log_record_of <$> entries s) ++ (log_record_of <$> entries s).
Proof.
  intros Hes.
  destruct (log_entries_readable (entries s) s Hes) as [Hc Hw].
  pose proof (entries_logRegistry s) as He.
  split; [done|]. split; [done|]. split; [done|].
  split; [apply observers_logRegistry|].
  destruct (log_entries_readable (entries (logRegistry s).2) (logRegistry s).2)
    as [_ Hw2]; [by rewrite He|].
  unfold logRegistry at 1. rewrite Hw2, He.
  unfold logRegistry. by rewrite Hw, <- app_assoc.
Qed.

Section UnreadableError.

Variable behaviour : nat → ErrorRegistryEntry → Store → Completion Value * Store.

(** X4: A wrapped method may throw [undefined] or [null]; the wrapper
    records the entry like any other, with that value as its [error].  From
    then on, whatever entries follow, [logRegistry] throws a [TypeError]
    when it reaches that entry: the entries before it have been written,
    that entry and those after it have not, and the registry is as it was. *)
Theorem logRegistry_stops_at_unreadable_error (target : Target) (key : string)
    (method : Function) (fuel : nat) (this : Value) (args : list Value)
    (s s1 later : Store) (thrown : Value) (rest : list ErrorRegistryEntry) :
  body method this args s = (Throw thrown, s1) →
  ¬ readable thrown →
  (∀ p e, keeps_entries (behaviour p e)) →
  Forall (λ entry, readable (error entry)) (entries s1) →
  let entry := new_entry thrown this (target_constructor_name target) (name method) s1 in
  let r := value (catchError behaviour target key {| value := method |}) fuel this args s in
  entries later = entries (final r) ++ rest →
  entries (final r) = entries s1 ++ [entry] ∧
  error entry = thrown ∧
  (∃ message, (logRegistry later).1 = Throw (VError "TypeError" message)) ∧
  console (logRegistry later).2 = console later ++ (log_record_of <$> entries s1) ∧
  entries (logRegistry later).2 = entries later ∧
  observers (logRegistry later).2 = observers later.
Proof.
  intros Hbody Hbad Hkeep Hgood entry r Hlater.
  assert (Hrec : entries (final r) = entries s1 ++ [entry]).
  { destruct (catch_path behaviour target key method fuel this args s s1 thrown Hbody)
      as (_ & Hfinal & _).
    fold entry in Hfinal. fold r in Hfinal. rewrite Hfinal.
    apply (for_of_observers_invariant behaviour
             (λ s0, entries s0 = entries s1 ++ [entry])).
    - intros p _ s0 Hs0. by rewrite Hkeep.
    - apply entries_push_entry. }
  split; [done|]. split; [done|].
  rewrite Hrec, <- app_assoc in Hlater. simpl in Hlater.
  destruct (log_entries_unreadable (entries s1) entry rest later Hgood Hbad) as [Hc Hw].
  split; [|split; [|split; [apply entries_logRegistry|apply observers_logRegistry]]].
  - unfold logRegistry. rewrite Hlater, Hc. unfold type_error_reading. by eexists.
  - unfold logRegistry. by rewrite Hlater.
Qed.

End UnreadableError.

(** On an example: [riskyOperation] throws an [Error], another method
    throws an object that has a [name] and a [message] of its own, and
    [logRegistry] writes both. *)
Lemma logRegistry_writes_every_entry_witness :
  (logRegistry (session silent 2
      [Invoke (PrototypeOf "MockClass") riskyOperation (VObject 7) [];
       Invoke (PrototypeOf "MockClass")
         (failing (VRecord 3 (VString "Custom") (VString "bad"))) (VObject 7) []]
      (newErrorRegistry 0)).1).1 = Normal tt ∧
  log_error_message <$>
    console (logRegistry (session silent 2
      [Invoke (PrototypeOf "MockClass") riskyOperation (VObject 7) [];
       Invoke (PrototypeOf "MockClass")
         (failing (VRecord 3 (VString "Custom") (VString "bad"))) (VObject 7) []]
      (newErrorRegistry 0)).1).2 =
  [VString "Something went wrong"; VString "bad"].
Proof.
  destruct (logRegistry_writes_every_entry (session silent 2
      [Invoke (PrototypeOf "MockClass") riskyOperation (VObject 7) [];
       Invoke (PrototypeOf "MockClass")
         (failing (VRecord 3 (VString "Custom") (VString "bad"))) (VObject 7) []]
      (newErrorRegistry 0)).1) as (H1 & H2 & _).
  - repeat (apply Forall_cons_2; [exact I|]). apply Forall_nil_2.
  - split; [exact H1|]. by rewrite H2.
Defined.

(** On an example: after one call of [riskyOperation], a method throws
    [null]; one more call of [riskyOperation] follows.  [logRegistry] writes
    the first entry and throws. *)
Lemma logRegistry_stops_at_unreadable_error_witness :
  error <$> entries (final (value (catchError silent (PrototypeOf "MockClass") "failing"
                                     {| value := failing VNull |})
                              2 (VObject 7) [] (final (risky_call silent 2 [])))) =
    [something_went_wrong; VNull] ∧
  (∃ message,
     (logRegistry
        (final (value (catchError silent (PrototypeOf "MockClass") "riskyOperation"
                         {| value := riskyOperation |})
                  2 (VObject 7) []
                  (final (value (catchError silent (PrototypeOf "MockClass") "failing"
                                   {| value := failing VNull |})
                            2 (VObject 7) [] (final (risky_call silent 2 []))))))).1
     = Throw (VError "TypeError" message)) ∧
  length (console (logRegistry
        (final (value (catchError silent (PrototypeOf "MockClass") "riskyOperation"
                         {| value := riskyOperation |})
                  2 (VObject 7) []
                  (final (value (catchError silent (PrototypeOf "MockClass") "failing"
                                   {| value := failing VNull |})
                            2 (VObject 7) [] (final (risky_call silent 2 []))))))).2) = 1.
Proof.
  destruct (logRegistry_stops_at_unreadable_error silent (PrototypeOf "MockClass")
              "failing" (failing VNull) 2 (VObject 7) []
              (final (risky_call silent 2 [])) (final (risky_call silent 2 []))
              (final (value (catchError silent (PrototypeOf "MockClass") "riskyOperation"
                               {| value := riskyOperation |})
                        2 (VObject 7) []
                        (final (value (catchError silent (PrototypeOf "MockClass") "failing"
                                         {| value := failing VNull |})
                                  2 (VObject 7) [] (final (risky_call silent 2 []))))))
              VNull [risky_entry] eq_refl) as (H1 & _ & H2 & H3 & _).
  - intros [].
  - intros p e. apply silent_quiet.
  - apply Forall_cons_2; [exact I|apply Forall_nil_2].
  - reflexivity.
  - split; [by rewrite H1|]. split; [exact H2|]. by rewrite H3.
Defined.

(** ** The array that [getRegistry] returns *)

Section LiveRegistry.

Variable behaviour : nat → ErrorRegistryEntry → Store → Completion Value * Store.

(** X5: [getRegistry] hands out the array itself: an entry recorded after the
    call is in the array the caller holds, and [getRegistry] still returns
    that same array. *)
Theorem getRegistry_array_receives_later_entries (target : Target) (key : string)
    (method : Function) (fuel : nat) (this : Value) (args : list Value)
    (s s1 : Store) (thrown : Value) :
  body method this args s = (Throw thrown, s1) →
  entryArrays s1 = entryArrays s →
  errorRegistryEntries s1 = errorRegistryEntries s →
  (∀ p e, keeps_entry_arrays (behaviour p e)) →
  let held := getRegistry s in
  let entry := new_entry thrown this (target_constructor_name target) (name method) s1 in
  let r := value (catchError behaviour target key {| value := method |}) fuel this args s in
  entries_at (final r) held = entries_at s held ++ [entry] ∧
  getRegistry (final r) = held.
Proof.
  intros Hbody Harr Hfield Hobs held entry r.
  destruct (catch_path behaviour target key method fuel this args s s1 thrown Hbody)
    as (_ & Hfinal & _).
  fold entry in Hfinal. fold r in Hfinal. rewrite Hfinal.
  pose proof (for_of_observers_invariant behaviour
    (λ s0, entryArrays s0 = entryArrays (push_entry entry s1) ∧
           errorRegistryEntries s0 = errorRegistryEntries s)
    entry (errorRegistryObservers s1) fuel 0 (push_entry entry s1)) as [H1 H2].
  - intros p _ s0 [Ha Hf]. destruct (Hobs p entry s0) as [-> ->]. done.
  - done.
  - unfold getRegistry, entries_at, held. rewrite H1, H2. split; [|done].
    unfold push_entry, getRegistry, entries_at; simpl.
    by rewrite Hfield, lookup_insert_eq, Harr.
Qed.

(** X6: [clearRegistry] does not empty the array a caller holds: it makes the
    registry use a new array.  The array handed out before still holds the
    old entries, [getRegistry] now returns another array, and an entry
    recorded afterwards goes to the new array only. *)
Theorem clearRegistry_leaves_held_array (target : Target) (key : string)
    (method : Function) (fuel : nat) (this : Value) (args : list Value)
    (s s1 : Store) (thrown : Value) :
  is_Some (entryArrays s !! getRegistry s) →
  body method this args (clearRegistry s) = (Throw thrown, s1) →
  entryArrays s1 = entryArrays (clearRegistry s) →
  errorRegistryEntries s1 = errorRegistryEntries (clearRegistry s) →
  (∀ p e, keeps_entry_arrays (behaviour p e)) →
  let held := getRegistry s in
  let entry := new_entry thrown this (target_constructor_name target) (name method) s1 in
  let r := value (catchError behaviour target key {| value := method |})
             fuel this args (clearRegistry s) in
  entries_at (clearRegistry s) held = entries s ∧
  getRegistry (clearRegistry s) ≠ held ∧
  entries_at (final r) held = entries s ∧
  entries (final r) = [entry].
Proof.
  intros Hheld Hbody Harr Hfield Hobs held entry r.
  assert (Hne : getRegistry (clearRegistry s) ≠ held).
  { unfold getRegistry, clearRegistry; simpl. by apply fresh_not_allocated. }
  assert (Hold : entries_at (clearRegistry s) held = entries s).
  { unfold entries, entries_at, clearRegistry; simpl.
    rewrite lookup_insert_ne; [done|]. by apply fresh_not_allocated. }
  split; [done|]. split; [done|].
  destruct (catch_path behaviour target key method fuel this args (clearRegistry s)
              s1 thrown Hbody) as (_ & Hfinal & _).
  fold entry in Hfinal. fold r in Hfinal. rewrite Hfinal.
  pose proof (for_of_observers_invariant behaviour
    (λ s0, entryArrays s0 = entryArrays (push_entry entry s1) ∧
           errorRegistryEntries s0 = errorRegistryEntries (clearRegistry s))
    entry (errorRegistryObservers s1) fuel 0 (push_entry entry s1)) as [H1 H2].
  - intros p _ s0 [Ha Hf]. destruct (Hobs p entry s0) as [-> ->]. done.
  - done.
  - unfold entries, getRegistry, entries_at. rewrite H1, H2.
    unfold push_entry, entries_at; simpl. rewrite Hfield, Harr. split.
    + rewrite lookup_insert_ne by done. exact Hold.
    + rewrite lookup_insert_eq. simpl. unfold clearRegistry; simpl.
      by rewrite lookup_insert_eq.
Qed.

End LiveRegistry.

Lemma silent_keeps_entry_arrays (p : nat) (e : ErrorRegistryEntry) :
  keeps_entry_arrays (silent p e).
Proof. by intros s. Qed.

(** On an example: the array held before a second call of [riskyOperation]
    has two entries after it. *)
Lemma getRegistry_array_receives_later_entries_witness :
  entries_at
    (final (value (catchError silent (PrototypeOf "MockClass") "riskyOperation"
                     {| value := riskyOperation |})
              2 (VObject 7) [] (final (risky_call silent 2 [0]))))
    (getRegistry (final (risky_call silent 2 [0]))) = [risky_entry; risky_entry].
Proof.
  apply (getRegistry_array_receives_later_entries silent (PrototypeOf "MockClass")
           "riskyOperation" riskyOperation 2 (VObject 7) []
           (final (risky_call silent 2 [0])) (final (risky_call silent 2 [0]))
           something_went_wrong eq_refl eq_refl eq_refl silent_keeps_entry_arrays).
Defined.

(** On an example: an array held with one entry, [clearRegistry], then a
    call of [riskyOperation]: the held array still has its one entry, and the
    registry has the new one. *)
Lemma clearRegistry_leaves_held_array_witness :
  entries_at (clearRegistry (final (risky_call silent 2 [0])))
    (getRegistry (final (risky_call silent 2 [0]))) = [risky_entry] ∧
  entries (final (value (catchError silent (PrototypeOf "MockClass") "riskyOperation"
                           {| value := riskyOperation |})
                    2 (VObject 7) [] (clearRegistry (final (risky_call silent 2 [0])))))
  = [risky_entry].
Proof.
  destruct (clearRegistry_leaves_held_array silent (PrototypeOf "MockClass")
              "riskyOperation" riskyOperation 2 (VObject 7) []
              (final (risky_call silent 2 [0]))
              (clearRegistry (final (risky_call silent 2 [0])))
              something_went_wrong) as (H1 & _ & _ & H2);
    [by eexists|done|done|done|apply silent_keeps_entry_arrays|].
  split; [exact H1|exact H2].
Defined.

(** ** Registering and unregistering, one after the other *)

Lemma filter_ne_idempotent (o : nat) (xs : list nat) :
  filter (λ x, x ≠ o) (filter (λ x, x ≠ o) xs) = filter (λ x, x ≠ o) xs.
Proof.
  apply filter_ne_absent. intros Hin.
  apply list_elem_of_filter in Hin as [Hne _]. done.
Qed.

Lemma filter_ne_commute (a b : nat) (xs : list nat) :
  filter (λ x, x ≠ a) (filter (λ x, x ≠ b) xs) =
  filter (λ x, x ≠ b) (filter (λ x, x ≠ a) xs).
Proof.
  induction xs as [|x xs IH]; [done|].
  rewrite !(filter_cons _ x xs).
  destruct (decide (x ≠ a)) as [Ha|Ha]; destruct (decide (x ≠ b)) as [Hb|Hb];
    rewrite ?(filter_cons_True _ x _ Ha), ?(filter_cons_True _ x _ Hb),
            ?(filter_cons_False _ x _ Ha), ?(filter_cons_False _ x _ Hb);
    by rewrite IH.
Qed.

Lemma filter_ne_snoc (o : nat) (xs : list nat) :
  filter (λ x, x ≠ o) (xs ++ [o]) = filter (λ x, x ≠ o) xs.
Proof.
  rewrite filter_app, filter_cons_False by (intros H; by apply H).
  by rewrite filter_nil, app_nil_r.
Qed.

(** X7: How [registerObserver] and [unregisterObserver] combine on the observer
    list.  Registering does not look for duplicates; unregistering what was
    just registered removes it together with every earlier registration of
    it, which gives the list back only when the observer was not registered
    before; unregistering twice is unregistering once; unregistering two
    observers gives the same list in either order; and registering again
    after unregistering leaves one registration, at the end. *)
Theorem register_unregister_combine (o o' : nat) (s : Store) :
  observers (registerObserver o (registerObserver o s)) = observers s ++ [o; o] ∧
  observers (unregisterObserver o (registerObserver o s)) =
    filter (λ x, x ≠ o) (observers s) ∧
  (o ∉ observers s →
   observers (unregisterObserver o (registerObserver o s)) = observers s) ∧
  observers (unregisterObserver o (unregisterObserver o s)) =
    observers (unregisterObserver o s) ∧
  observers (unregisterObserver o (unregisterObserver o' s)) =
    observers (unregisterObserver o' (unregisterObserver o s)) ∧
  observers (registerObserver o (unregisterObserver o s)) =
    filter (λ x, x ≠ o) (observers s) ++ [o].
Proof.
  repeat (rewrite observers_registerObserver || rewrite observers_unregisterObserver).
  rewrite filter_ne_snoc, filter_ne_idempotent, <- app_assoc.
  repeat split; [|apply filter_ne_commute].
  apply filter_ne_absent.
Qed.

(** ** What the observers are told, across calls *)

Section Told.

Variable behaviour : nat → ErrorRegistryEntry → Store → Completion Value * Store.

(** One call of a wrapped method, with observers that return and leave the
    registry alone: it records no entry or one, and calls every observer
    with the entry it recorded. *)
Lemma perform_quiet_invocation (fuel : nat) (c : Call) (s : Store) :
  (∀ p, p ∈ observers s → ∀ e,
        returns_normally (behaviour p e) ∧ keeps_observers (behaviour p e) ∧
        keeps_entries (behaviour p e)) →
  quiet_invocation c →
  length (observers s) < fuel →
  ∃ es, length es ≤ 1 ∧
        entries (final (perform behaviour fuel c s)) = entries s ++ es ∧
        calls (perform behaviour fuel c s) =
          concat ((λ e, (λ p, (p, e)) <$> observers s) <$> es) ∧
        observers (final (perform behaviour fuel c s)) = observers s.
Proof.
  intros Hobs Hc Hfuel. destruct c as [| | | | |target method this args]; try done.
  simpl in Hc. destruct (Hc s) as [He Ho]. simpl.
  destruct (body method this args s) as [[v|thrown] s1] eqn:Hb; simpl in *.
  - exists []. rewrite app_nil_r. simpl. split; [lia|]. by rewrite He, Ho.
  - unfold pushErrorToRegistry, notifyObservers.
    set (entry := new_entry thrown this (target_constructor_name target) (name method) s1).
    exists [entry]. split; [done|].
    destruct (for_of_observers_quiet behaviour entry
                (errorRegistryObservers s1) (observers s)
                fuel 0 (push_entry entry s1)) as [_ Hcalls]; [by rewrite <- Ho| |lia|].
    { intros p Hp. rewrite drop_0 in Hp. destruct (Hobs p Hp entry) as (? & ? & ?). done. }
    rewrite drop_0 in Hcalls. simpl. rewrite app_nil_r.
    split; [|split; [done|]].
    + rewrite <- He.
      apply (for_of_observers_invariant behaviour
               (λ s0, entries s0 = entries s1 ++ [entry])).
      * intros p Hp s0 Hs0. rewrite Hcalls, calls_fst in Hp.
        destruct (Hobs p Hp entry) as (_ & _ & Hkeep). by rewrite Hkeep.
      * apply entries_push_entry.
    + rewrite <- Ho.
      apply (for_of_observers_invariant behaviour (λ s0, observers s0 = observers s1)).
      * intros p Hp s0 Hs0. rewrite Hcalls, calls_fst in Hp.
        destruct (Hobs p Hp entry) as (_ & Hkeep & _).
        destruct (Hkeep s0) as [Ha Hf]. unfold observers, observers_at in *.
        by rewrite Ha, Hf.
      * done.
Qed.

(** X8: Across any number of calls of wrapped methods, with observers that
    return and leave the registry alone: the observers have been told
    exactly what the registry has recorded.  Every new entry was passed to
    every registered observer, in registration order, entry after entry in
    the order of the entry sequence; nothing else was passed to anyone. *)
Theorem observers_are_told_what_is_recorded (fuel : nat) (cs : list Call) (s : Store) :
  (∀ p, p ∈ observers s → ∀ e,
        returns_normally (behaviour p e) ∧ keeps_observers (behaviour p e) ∧
        keeps_entries (behaviour p e)) →
  Forall quiet_invocation cs →
  length (observers s) < fuel →
  ∃ es, length es ≤ length cs ∧
        entries (session behaviour fuel cs s).1 = entries s ++ es ∧
        (session behaviour fuel cs s).2 =
          concat ((λ e, (λ p, (p, e)) <$> observers s) <$> es) ∧
        observers (session behaviour fuel cs s).1 = observers s.
Proof.
  revert s. induction cs as [|c cs IH]; intros s Hobs Hcs Hfuel; simpl.
  - exists []. by rewrite app_nil_r.
  - apply Forall_cons in Hcs as [Hc Hcs].
    destruct (perform_quiet_invocation fuel c s Hobs Hc Hfuel)
      as (es1 & Hlen1 & He1 & Hc1 & Ho1).
    destruct (IH (final (perform behaviour fuel c s))) as (es2 & Hlen2 & He2 & Hc2 & Ho2);
      [by rewrite Ho1|done|by rewrite Ho1|].
    exists (es1 ++ es2). rewrite length_app. split; [lia|].
    rewrite He2, He1, Hc1, Hc2, Ho2, Ho1, fmap_app, concat_app, app_assoc. done.
Qed.

End Told.

Lemma risky_call_quiet (target : Target) :
  quiet_invocation (Invoke target riskyOperation (VObject 7) []).
Proof. by intros s. Qed.

(** On an example: two observers, two calls of [riskyOperation]. *)
Lemma observers_are_told_what_is_recorded_witness :
  ∃ es, length es ≤ 2 ∧
        entries (session silent 3
                   [Invoke (PrototypeOf "MockClass") riskyOperation (VObject 7) [];
                    Invoke (PrototypeOf "MockClass") riskyOperation (VObject 7) []]
                   (registry_with [0; 4])).1 = [] ++ es ∧
        (session silent 3
           [Invoke (PrototypeOf "MockClass") riskyOperation (VObject 7) [];
            Invoke (PrototypeOf "MockClass") riskyOperation (VObject 7) []]
           (registry_with [0; 4])).2 =
          concat ((λ e, (λ p, (p, e)) <$> [0; 4]) <$> es) ∧
        observers (session silent 3
                     [Invoke (PrototypeOf "MockClass") riskyOperation (VObject 7) [];
                      Invoke (PrototypeOf "MockClass") riskyOperation (VObject 7) []]
                     (registry_with [0; 4])).1 = [0; 4].
Proof.
  apply (observers_are_told_what_is_recorded silent 3
           [Invoke (PrototypeOf "MockClass") riskyOperation (VObject 7) [];
            Invoke (PrototypeOf "MockClass") riskyOperation (VObject 7) []]
           (registry_with [0; 4])).
  - intros p _ e. apply silent_quiet.
  - repeat (apply Forall_cons_2; [apply risky_call_quiet|]). apply Forall_nil_2.
  - vm_compute. lia.
Defined.

(** ** The order of the entries *)

Section Chronology.

Variable behaviour : nat → ErrorRegistryEntry → Store → Completion Value * Store.

Lemma chronological_later (s s' : Store) :
  entries s' = entries s → (clock s ≤ clock s')%Z →
  chronological s → chronological s'.
Proof.
  intros He Hc [Hsorted Hbound]. split; rewrite He; [done|].
  intros e Hin. specialize (Hbound e Hin). lia.
Qed.

Lemma chronological_push_entry (thrown ctx : Value) (cn mn : string) (s : Store) :
  chronological s → chronological (push_entry (new_entry thrown ctx cn mn s) s).
Proof.
  intros [Hsorted Hbound]. set (entry := new_entry thrown ctx cn mn s).
  split; rewrite entries_push_entry.
  - intros i j ei ej Hij Hi Hj.
    destruct (decide (j < length (entries s))) as [Hlt|Hge].
    + rewrite lookup_app_l in Hi, Hj by lia. by apply (Hsorted i j).
    + rewrite lookup_app_r in Hj by lia.
      apply list_lookup_singleton_Some in Hj as [_ <-].
      destruct (decide (i < length (entries s))) as [Hlt|Hge'].
      * rewrite lookup_app_l in Hi by lia.
        apply (Hbound ei). by eapply list_elem_of_lookup_2.
      * rewrite lookup_app_r in Hi by lia.
        apply list_lookup_singleton_Some in Hi as [_ <-]. done.
  - intros e Hin. apply elem_of_app in Hin as [Hin|Hin].
    + by apply Hbound.
    + apply list_elem_of_singleton in Hin as ->. done.
Qed.

Lemma perform_chronological (fuel : nat) (c : Call) (s : Store) :
  (∀ p e, keeps_entries (behaviour p e) ∧ clock_advances (behaviour p e)) →
  body_keeps_time c →
  chronological s →
  chronological (final (perform behaviour fuel c s)).
Proof.
  intros Hobs Hc Hs. destruct c as [| |o|o| |target method this args]; simpl.
  - done.
  - split; rewrite entries_clearRegistry.
    + intros i j ei ej _ Hi. by rewrite lookup_nil in Hi.
    + intros e Hin. by apply not_elem_of_nil in Hin.
  - by apply (chronological_later s).
  - by apply (chronological_later s).
  - pose proof (entries_logRegistry s) as He.
    destruct (log_entries_frame (entries s) s) as (_ & _ & _ & _ & Hclock).
    fold (logRegistry s) in Hclock.
    destruct (logRegistry s) as [[[]|e] s']; simpl in *;
      apply (chronological_later s); try done; lia.
  - simpl in Hc. destruct Hc as [Hkeep Hadv].
    specialize (Hkeep s). specialize (Hadv s).
    destruct (body method this args s) as [[v|thrown] s1] eqn:Hb; simpl in *.
    + by apply (chronological_later s).
    + unfold pushErrorToRegistry, notifyObservers.
      apply (for_of_observers_invariant behaviour chronological).
      * intros p _ s0 Hs0. destruct (Hobs p
          (new_entry thrown this (target_constructor_name target) (name method) s1))
          as [Hk Ha].
        by apply (chronological_later s0).
      * apply chronological_push_entry. by apply (chronological_later s).
Qed.

(** X9: The entry sequence stays in the order of its timestamps, through any
    calls, as long as application code does not turn the clock back and
    does not change the entry sequence itself: each timestamp is read when
    the entry is pushed, and entries are only ever pushed at the end. *)
Theorem entries_stay_chronological (fuel : nat) (cs : list Call) (s : Store) :
  (∀ p e, keeps_entries (behaviour p e) ∧ clock_advances (behaviour p e)) →
  Forall body_keeps_time cs →
  chronological s →
  chronological (session behaviour fuel cs s).1.
Proof.
  intros Hobs. revert s. induction cs as [|c cs IH]; intros s Hcs Hs; simpl; [done|].
  apply Forall_cons in Hcs as [Hc Hcs].
  apply IH; [done|]. by apply perform_chronological.
Qed.

End Chronology.

Lemma entries_newErrorRegistry (now : Z) : entries (newErrorRegistry now) = [].
Proof.
  unfold entries, entries_at, getRegistry, newErrorRegistry; simpl.
  by rewrite lookup_singleton_eq.
Qed.

Lemma newErrorRegistry_chronological (now : Z) : chronological (newErrorRegistry now).
Proof.
  split; rewrite entries_newErrorRegistry.
  - intros i j ei ej _ Hi. by rewrite lookup_nil in Hi.
  - intros e Hin. by apply not_elem_of_nil in Hin.
Qed.

(** On an example: two calls of a method that takes time, with a silent
    observer; the timestamps are 1 and 2. *)
Lemma entries_stay_chronological_witness :
  chronological (session silent 2
    [Invoke (PrototypeOf "MockClass") slow (VObject 7) [];
     LogRegistry;
     Invoke (PrototypeOf "MockClass") slow (VObject 7) []]
    (registerObserver 0 (newErrorRegistry 0))).1 ∧
  timestamp <$> entries (session silent 2
    [Invoke (PrototypeOf "MockClass") slow (VObject 7) [];
     LogRegistry;
     Invoke (PrototypeOf "MockClass") slow (VObject 7) []]
    (registerObserver 0 (newErrorRegistry 0))).1 = [1%Z; 2%Z].
Proof.
  split; [|reflexivity].
  apply (entries_stay_chronological silent).
  - intros p e. split; intros s; simpl; [done|lia].
  - apply Forall_cons_2; [|apply Forall_cons_2; [exact I|apply Forall_cons_2; [|apply Forall_nil_2]]];
      (split; intros s; simpl; [done|lia]).
  - apply (chronological_later (newErrorRegistry 0)); [done|done|].
    apply newErrorRegistry_chronological.
Defined.

(** ** Observers that act on the registry when they are notified *)

Section ActingObservers.

Variable behaviour : nat → ErrorRegistryEntry → Store → Completion Value * Store.

(** What the observer at position [i] brings about, and every observer
    keeps, holds when the loop has got past position [i]. *)
Lemma for_of_observers_establishes (I Q : Store → Prop) (e : ErrorRegistryEntry)
    (a o i : nat) (xs : list nat) :
  xs !! i = Some o →
  (∀ p, p ∈ take i xs →
        returns_normally (behaviour p e) ∧ appends_only (behaviour p e)) →
  (∀ p s0, I s0 → I (behaviour p e s0).2) →
  (∀ s0, I s0 → Q (behaviour o e s0).2) →
  (∀ p s0, I s0 → Q s0 → Q (behaviour p e s0).2) →
  ∀ (d index fuel : nat) (s : Store) (ys : list nat),
    index + d = i →
    observerArrays s !! a = Some (xs ++ ys) →
    i - index < fuel →
    I s →
    Q (final (for_of_observers behaviour fuel a index e s)).
Proof.
  intros Ho Hahead HI Hest HQ.
  apply lookup_lt_Some in Ho as Hi.
  induction d as [|d IH]; intros index fuel s ys Hd Ha Hfuel Hs.
  - assert (index = i) as -> by lia.
    destruct fuel as [|fuel]; [lia|].
    pose proof (Hest s Hs) as HQs. pose proof (HI o s Hs) as HIs. simpl.
    rewrite (observers_at_lookup _ _ _ Ha), (lookup_app_l_Some _ _ _ _ Ho).
    destruct (behaviour o e s) as [[v|err] s'] eqn:Hb; simpl in *; [|done].
    apply (for_of_observers_invariant behaviour (λ s0, I s0 ∧ Q s0)); [|done].
    intros p _ s0 [H1 H2]. split; [by apply HI|by apply HQ].
  - assert (Hlt : index < length xs) by lia.
    destruct fuel as [|fuel]; [lia|].
    destruct (lookup_lt_is_Some_2 xs index Hlt) as [p Hp].
    assert (Hin : p ∈ take i xs).
    { apply elem_of_take. exists index. split; [done|lia]. }
    destruct (Hahead p Hin) as (Hret & Happ). destruct (Hret s) as [v Hv].
    destruct (Happ s a _ Ha) as [ys' Ha'].
    pose proof (HI p s Hs) as HIs.
    destruct (behaviour p e s) as [c s'] eqn:Hb. simpl in Hv, Ha', HIs. subst c.
    rewrite <- app_assoc in Ha'.
    rewrite (for_of_observers_next behaviour fuel a index p e s s' v); [|
      by rewrite (observers_at_lookup _ _ _ Ha), lookup_app_l | done].
    simpl. apply (IH (S index) fuel s' (ys ++ ys')); [lia|done|lia|done].
Qed.

(** Observers that return and leave the existing observer arrays as they
    are, though they may make the registry use a new one, are called once
    each, and then the loop returns. *)
Lemma for_of_observers_fixed_array (e : ErrorRegistryEntry) (a : nat) (xs : list nat) :
  ∀ (fuel index : nat) (s : Store),
    observerArrays s !! a = Some xs →
    (∀ p, p ∈ drop index xs →
          returns_normally (behaviour p e) ∧ keeps_arrays (behaviour p e)) →
    length xs - index < fuel →
    outcome (for_of_observers behaviour fuel a index e s) = Returned tt ∧
    calls (for_of_observers behaviour fuel a index e s) = (λ p, (p, e)) <$> drop index xs.
Proof.
  induction fuel as [|fuel IH]; intros index s Ha Hrely Hfuel; [lia|].
  simpl. rewrite (observers_at_lookup _ _ _ Ha).
  destruct (xs !! index) as [p|] eqn:Hp.
  - assert (Hin : p ∈ drop index xs).
    { apply list_elem_of_lookup. exists 0. by rewrite lookup_drop, Nat.add_0_r. }
    destruct (Hrely p Hin) as [Hret Hkeep].
    destruct (Hret s) as [v Hv]. specialize (Hkeep s a xs Ha).
    destruct (behaviour p e s) as [c s'] eqn:Hb. simpl in *. subst c.
    apply lookup_lt_Some in Hp as Hlt.
    destruct (IH (S index) s' Hkeep) as [Hout Hcalls]; [|lia|].
    { intros q Hq. apply Hrely. rewrite (drop_S _ _ _ Hp). by right. }
    simpl. split; [done|]. by rewrite Hcalls, (drop_S _ _ _ Hp).
  - apply lookup_ge_None in Hp. by rewrite drop_ge.
Qed.

(** X10: An observer that unregisters itself when it is notified, the others
    leaving the observer list alone: for the entry being notified every
    registration is called, its own included, and the call returns; the
    observer list is then the old one without it; and the next notification
    calls the others only. *)
Theorem self_unregistering_observer_is_called_for_one_entry (target : Target)
    (key : string) (method : Function) (fuel : nat) (this : Value)
    (args : list Value) (s s1 : Store) (thrown : Value) (xs : list nat) (o : nat) :
  body method this args s = (Throw thrown, s1) →
  observerArrays s1 !! errorRegistryObservers s1 = Some xs →
  o ∈ xs →
  (∀ e s0, behaviour o e s0 = (Normal VUndefined, unregisterObserver o s0)) →
  (∀ p, p ≠ o → ∀ e,
        returns_normally (behaviour p e) ∧ keeps_observers (behaviour p e)) →
  length xs < fuel →
  let entry := new_entry thrown this (target_constructor_name target) (name method) s1 in
  let r := value (catchError behaviour target key {| value := method |}) fuel this args s in
  outcome r = Returned VUndefined ∧
  calls r = (λ p, (p, entry)) <$> xs ∧
  observers (final r) = filter (λ p, p ≠ o) xs ∧
  (∀ entry', calls (notifyObservers behaviour fuel entry' (final r)) =
             (λ p, (p, entry')) <$> filter (λ p, p ≠ o) xs).
Proof.
  intros Hbody Ha Hin Hself Hothers Hfuel entry r.
  destruct (catch_path behaviour target key method fuel this args s s1 thrown Hbody)
    as (Hcalls & Hfinal & Hout).
  fold entry in Hcalls, Hfinal, Hout. fold r in Hcalls, Hfinal, Hout.
  assert (Hall : ∀ p e, returns_normally (behaviour p e) ∧ keeps_arrays (behaviour p e) ∧
                        appends_only (behaviour p e)).
  { intros p e. destruct (decide (p = o)) as [->|Hne].
    - split; [intros s0; exists VUndefined; by rewrite Hself|].
      split; intros s0 a ys Hys; rewrite Hself; cbn [snd].
      + rewrite unregisterObserver_old_arrays; [done|by rewrite Hys].
      + exists []. rewrite app_nil_r, unregisterObserver_old_arrays; [done|by rewrite Hys].
    - destruct (Hothers p Hne e) as [Hret Hkeep]. split; [done|].
      split; intros s0 a ys Hys; destruct (Hkeep s0) as [-> _]; [done|].
      exists []. by rewrite app_nil_r. }
  destruct (for_of_observers_fixed_array entry (errorRegistryObservers s1) xs
              fuel 0 (push_entry entry s1) Ha) as [Hr Hc]; [|lia|].
  { intros p _. destruct (Hall p entry) as (? & ? & _). done. }
  rewrite drop_0 in Hc.
  assert (Hgone : observers (final r) = filter (λ p, p ≠ o) xs).
  { rewrite Hfinal. apply list_elem_of_lookup in Hin as [i Hi].
    apply lookup_lt_Some in Hi as Hlt.
    apply (for_of_observers_establishes
             (λ s0, observers s0 = xs ∨ observers s0 = filter (λ p, p ≠ o) xs)
             (λ s0, observers s0 = filter (λ p, p ≠ o) xs)
             entry (errorRegistryObservers s1) o i xs Hi)
      with (d := i) (index := 0) (ys := []); [| | | |lia|by rewrite app_nil_r|lia|].
    - intros p _. destruct (Hall p entry) as (? & _ & ?). done.
    - intros p s0 Hs0. destruct (decide (p = o)) as [->|Hne].
      + rewrite Hself. simpl. rewrite observers_unregisterObserver. right.
        destruct Hs0 as [->| ->]; [done|apply filter_ne_idempotent].
      + destruct (Hothers p Hne entry) as [_ Hkeep]. destruct (Hkeep s0) as [Hh Hf].
        unfold observers, observers_at in *. by rewrite Hh, Hf.
    - intros s0 Hs0. rewrite Hself. simpl. rewrite observers_unregisterObserver.
      destruct Hs0 as [->| ->]; [done|apply filter_ne_idempotent].
    - intros p s0 _ Hs0. destruct (decide (p = o)) as [->|Hne].
      + rewrite Hself. simpl. rewrite observers_unregisterObserver, Hs0.
        apply filter_ne_idempotent.
      + destruct (Hothers p Hne entry) as [_ Hkeep]. destruct (Hkeep s0) as [Hh Hf].
        unfold observers, observers_at in *. by rewrite Hh, Hf.
    - left. unfold observers. by apply observers_at_lookup. }
  rewrite Hout, Hcalls, Hr, Hc. do 3 (split; [done|]).
  intros entry'. unfold notifyObservers.
  destruct (for_of_observers_quiet behaviour entry' (errorRegistryObservers (final r))
              (filter (λ p, p ≠ o) xs) fuel 0 (final r)) as [_ Hc']; [done| | |].
  - intros p Hp. rewrite drop_0 in Hp. apply list_elem_of_filter in Hp as [Hne _].
    by apply Hothers.
  - pose proof (length_filter (λ p, p ≠ o) xs). lia.
  - by rewrite drop_0 in Hc'.
Qed.

(** X11: An observer that calls [clearRegistry] when it is notified, the others
    leaving the entry sequence alone: the entry sequence is empty after
    every throwing call.  The entry is pushed before the observers are
    called, so the observer's [clearRegistry] drops it with the rest. *)
Theorem clearing_observer_leaves_no_entry (target : Target)
    (key : string) (method : Function) (fuel : nat) (this : Value)
    (args : list Value) (s s1 : Store) (thrown : Value) (xs : list nat) (i o : nat) :
  body method this args s = (Throw thrown, s1) →
  observerArrays s1 !! errorRegistryObservers s1 = Some xs →
  xs !! i = Some o →
  (∀ e s0, (behaviour o e s0).2 = clearRegistry s0) →
  (∀ p, p ∈ take i xs → ∀ e,
        returns_normally (behaviour p e) ∧ appends_only (behaviour p e)) →
  (∀ p, p ≠ o → ∀ e, keeps_entries (behaviour p e)) →
  i < fuel →
  entries (final (value (catchError behaviour target key {| value := method |})
                    fuel this args s)) = [].
Proof.
  intros Hbody Ha Hi Hclear Hahead Hothers Hfuel.
  destruct (catch_path behaviour target key method fuel this args s s1 thrown Hbody)
    as (_ & -> & _).
  apply (for_of_observers_establishes (λ _, True) (λ s0, entries s0 = [])
           _ (errorRegistryObservers s1) o i xs Hi)
    with (d := i) (index := 0) (ys := []); [| | | |lia|by rewrite app_nil_r|lia|done].
  - intros p Hp. by apply Hahead.
  - done.
  - intros s0 _. rewrite Hclear. apply entries_clearRegistry.
  - intros p s0 _ Hs0. destruct (decide (p = o)) as [->|Hne].
    + rewrite Hclear. apply entries_clearRegistry.
    + by rewrite (Hothers p Hne).
Qed.

End ActingObservers.

Lemma once_others (p : nat) (e : ErrorRegistryEntry) :
  p ≠ 6 → returns_normally (once p e) ∧ keeps_observers (once p e).
Proof.
  intros Hp.
  do 7 (destruct p as [|p];
        [first [by destruct Hp | split; [by exists VUndefined|by intros s]]|]).
  split; [by exists VUndefined|by intros s].
Qed.

(** On an example: observer [6] unregisters itself, between two
    registrations of observer [0]. *)
Lemma self_unregistering_observer_is_called_for_one_entry_witness :
  outcome (risky_call once 4 [0; 6; 0]) = Returned VUndefined ∧
  calls (risky_call once 4 [0; 6; 0]) =
    [(0, risky_entry); (6, risky_entry); (0, risky_entry)] ∧
  observers (final (risky_call once 4 [0; 6; 0])) = [0; 0] ∧
  calls (notifyObservers once 4 risky_entry (final (risky_call once 4 [0; 6; 0]))) =
    [(0, risky_entry); (0, risky_entry)].
Proof.
  destruct (self_unregistering_observer_is_called_for_one_entry once
              (PrototypeOf "MockClass") "riskyOperation" riskyOperation 4 (VObject 7) []
              (registry_with [0; 6; 0]) (registry_with [0; 6; 0]) something_went_wrong
              [0; 6; 0] 6 eq_refl eq_refl) as (H1 & H2 & H3 & H4).
  - apply list_elem_of_lookup. by exists 1.
  - done.
  - intros p Hp e. by apply once_others.
  - simpl. lia.
  - split; [exact H1|]. split; [exact H2|]. split; [exact H3|]. apply H4.
Defined.

Lemma consuming_others (p : nat) (e : ErrorRegistryEntry) :
  p ≠ 8 → keeps_entries (consuming p e).
Proof.
  intros Hp.
  do 9 (destruct p as [|p]; [first [by destruct Hp | by intros s]|]).
  by intros s.
Qed.

(** On an example: observer [8] clears the registry, between two
    registrations of observer [0]. *)
Lemma clearing_observer_leaves_no_entry_witness :
  entries (final (risky_call consuming 2 [0; 8; 0])) = [].
Proof.
  apply (clearing_observer_leaves_no_entry consuming
           (PrototypeOf "MockClass") "riskyOperation" riskyOperation 2 (VObject 7) []
           (registry_with [0; 8; 0]) (registry_with [0; 8; 0]) something_went_wrong
           [0; 8; 0] 1 8 eq_refl eq_refl eq_refl).
  - done.
  - intros p Hp e. apply list_elem_of_singleton in Hp as ->.
    split; [by exists VUndefined|apply (unchanged_appends_only (Normal VUndefined))].
  - intros p Hp e. by apply consuming_others.
  - lia.
Defined.

(** ** A registry without observers *)

(** X12: With no observer registered, a throwing call of a wrapped method
    returns [undefined] and does nothing but push the entry: the store is
    the one the body left with the entry appended, and nobody is called. *)
Theorem throwing_call_without_observers
    (behaviour : nat → ErrorRegistryEntry → Store → Completion Value * Store)
    (target : Target) (key : string) (method : Function) (fuel : nat)
    (this : Value) (args : list Value) (s s1 : Store) (thrown : Value) :
  body method this args s = (Throw thrown, s1) →
  observers s1 = [] →
  0 < fuel →
  let entry := new_entry thrown this (target_constructor_name target) (name method) s1 in
  let r := value (catchError behaviour target key {| value := method |}) fuel this args s in
  outcome r = Returned VUndefined ∧
  final r = push_entry entry s1 ∧
  calls r = [] ∧
  entries (final r) = entries s1 ++ [entry].
Proof.
  intros Hbody Hnone Hfuel entry r.
  destruct (catch_path behaviour target key method fuel this args s s1 thrown Hbody)
    as (Hcalls & Hfinal & Hout).
  fold entry in Hcalls, Hfinal, Hout. fold r in Hcalls, Hfinal, Hout.
  destruct fuel as [|fuel]; [lia|].
  assert (Hloop : for_of_observers behaviour (S fuel) (errorRegistryObservers s1) 0 entry
                    (push_entry entry s1) =
                  {| outcome := Returned tt; final := push_entry entry s1; calls := [] |}).
  { simpl. unfold observers in Hnone.
    replace (observers_at (push_entry entry s1) (errorRegistryObservers s1))
      with (observers_at s1 (errorRegistryObservers s1)) by done.
    by rewrite Hnone. }
  rewrite Hloop in Hcalls, Hfinal, Hout. simpl in *.
  rewrite Hout, Hfinal, Hcalls. repeat split. apply entries_push_entry.
Qed.

(** On an example: [riskyOperation] in a new registry. *)
Lemma throwing_call_without_observers_witness :
  outcome (risky_call demo 1 []) = Returned VUndefined ∧
  calls (risky_call demo 1 []) = [] ∧
  entries (final (risky_call demo 1 [])) = [risky_entry].
Proof.
  destruct (throwing_call_without_observers demo (PrototypeOf "MockClass")
              "riskyOperation" riskyOperation 1 (VObject 7) []
              (registry_with []) (registry_with []) something_went_wrong
              eq_refl eq_refl) as (H1 & _ & H2 & H3); [lia|].
  split; [exact H1|]. split; [exact H2|exact H3].
Defined.
